(** * llvm_wrapper.cc: a shallow embedding and its verified properties

    The wrapper is a thin C++ layer between the GNAT LLVM front end and the
    LLVM libraries.  Four parts of it carry behaviour of their own and are
    embedded here, each in a module:

    - [Orchestrator]: [LLVM_Optimize_Module], the new-pass-manager driver;
    - [TBAA]: the type-based alias-analysis metadata constructors;
    - [FP]: [Convert_FP_To_String];
    - [Tracker]: [GNATCallbackVH] and [Notify_On_Value_Delete].

    [APFloatText] follows the LLVM function that renders a finite value,
    and [TrackerExec] the tracker as the compiled program runs it.

    Calls into LLVM are kept as they appear in the source: either as
    constructors of an event/pass type that records the call and its
    arguments, or as section variables standing for the library function. *)

From Stdlib Require Import ZArith Ascii String.
From stdpp Require Import base option list strings gmap.

(** ** The optimization pipeline orchestrator *)

Module Orchestrator.

Local Open Scope Z_scope.

(** [llvm::OptimizationLevel], the four members the driver can select. *)
Inductive OptimizationLevel := O0 | O1 | O2 | O3.

(** The fields of [llvm::PipelineTuningOptions] that the driver assigns. *)
Module PTO.
Record t := mk {
  LoopUnrolling : bool;
  LoopInterleaving : bool;
  LoopVectorization : bool;
  SLPVectorization : bool;
  MergeFunctions : bool
}.
End PTO.

(** Passes.  The four [PassBuilder::build...Pipeline] results are opaque to
    the wrapper, so each is a constructor carrying the arguments of the call
    that built it. *)
Inductive LoopPass := LoopRotatePass | OurLoopPass.

Inductive FunctionPass :=
| FunctionToLoopPassAdaptor (P : LoopPass).

Inductive ModulePass :=
| O0DefaultPipeline (Level : OptimizationLevel) (LTOPreLink : bool)
| ThinLTOPreLinkDefaultPipeline (Level : OptimizationLevel)
| LTOPreLinkDefaultPipeline (Level : OptimizationLevel)
| PerModuleDefaultPipeline (Level : OptimizationLevel)
| ModuleToFunctionPassAdaptor (P : FunctionPass).

(** A [ModulePassManager] is the sequence of its passes, run front to back;
    [addPass] appends. *)
Definition ModulePassManager := list ModulePass.

Definition addPass (MPM : ModulePassManager) (P : ModulePass)
  : ModulePassManager := MPM ++ [P].

Definition buildO0DefaultPipeline (Level : OptimizationLevel)
  (LTOPreLink : bool) : ModulePassManager := [O0DefaultPipeline Level LTOPreLink].
Definition buildThinLTOPreLinkDefaultPipeline (Level : OptimizationLevel)
  : ModulePassManager := [ThinLTOPreLinkDefaultPipeline Level].
Definition buildLTOPreLinkDefaultPipeline (Level : OptimizationLevel)
  : ModulePassManager := [LTOPreLinkDefaultPipeline Level].
Definition buildPerModuleDefaultPipeline (Level : OptimizationLevel)
  : ModulePassManager := [PerModuleDefaultPipeline Level].

(** *** [OurLoopPass::run]

    What the pass reads of a loop, and what it gives back. *)
Record Loop := mkLoop {
  getLoopPreheader : option N;
  getHeader : N;
  getLoopLatch : option N;
  getLatchCmpInst : option N;
  isLoopSimplifyForm : bool
}.

Inductive PreservedAnalyses := PreservedAnalyses_all | PreservedAnalyses_none.

Definition OurLoopPass_run (L : Loop) : Loop * PreservedAnalyses :=
  let pre := getLoopPreheader L in
  let header := getHeader L in
  let latch := getLoopLatch L in
  let cmp := getLatchCmpInst L in
  let issimple := isLoopSimplifyForm L in
  (L, PreservedAnalyses_all).

Definition OurLoopPass_isRequired : bool := true.

(** *** The local computations of [LLVM_Optimize_Module] *)

(** Lines 595-599: the conditional chain on [CodeOptLevel]. *)
Definition Level (CodeOptLevel : Z) : OptimizationLevel :=
  if CodeOptLevel =? 1 then O1
  else if CodeOptLevel =? 2 then O2
  else if CodeOptLevel =? 3 then O3
  else O0.

(** Lines 600-604: the five assignments to [PTO]. *)
Definition PTO_of (NoUnrollLoops NoLoopVectorization NoSLPVectorization
                   MergeFunctions : bool) : PTO.t :=
  {| PTO.LoopUnrolling := negb NoUnrollLoops;
     PTO.LoopInterleaving := negb NoUnrollLoops;
     PTO.LoopVectorization := negb NoLoopVectorization;
     PTO.SLPVectorization := negb NoSLPVectorization;
     PTO.MergeFunctions := MergeFunctions |}.

(** Lines 645-659: the [if]/[else if] chain that assigns [MPM]. *)
Definition MPM_selected (CodeOptLevel : Z)
  (NeedLoopInfo PrepareForThinLTO PrepareForLTO : bool) : ModulePassManager :=
  if CodeOptLevel =? 0 then
    let MPM := buildO0DefaultPipeline (Level CodeOptLevel)
                 (PrepareForLTO || PrepareForThinLTO) in
    if NeedLoopInfo then
      addPass MPM
        (ModuleToFunctionPassAdaptor (FunctionToLoopPassAdaptor LoopRotatePass))
    else MPM
  else if PrepareForThinLTO then
    buildThinLTOPreLinkDefaultPipeline (Level CodeOptLevel)
  else if PrepareForLTO then
    buildLTOPreLinkDefaultPipeline (Level CodeOptLevel)
  else
    buildPerModuleDefaultPipeline (Level CodeOptLevel).

(** Lines 645-663: [MPM] as it stands when [MPM.run] is reached. *)
Definition MPM_assembled (CodeOptLevel : Z)
  (NeedLoopInfo PrepareForThinLTO PrepareForLTO : bool) : ModulePassManager :=
  let MPM :=
    MPM_selected CodeOptLevel NeedLoopInfo PrepareForThinLTO PrepareForLTO in
  if NeedLoopInfo then
    addPass MPM
      (ModuleToFunctionPassAdaptor (FunctionToLoopPassAdaptor OurLoopPass))
  else MPM.

(** The passes of a manager that are one of the four default pipelines,
    and the two loop-pass adaptors the driver may add. *)
Definition is_default_pipeline (P : ModulePass) : bool :=
  match P with
  | ModuleToFunctionPassAdaptor _ => false
  | _ => true
  end.

Definition default_pipelines (MPM : ModulePassManager) : list ModulePass :=
  List.filter is_default_pipeline MPM.

Definition LoopRotate_adaptor : ModulePass :=
  ModuleToFunctionPassAdaptor (FunctionToLoopPassAdaptor LoopRotatePass).

Definition OurLoopPass_adaptor : ModulePass :=
  ModuleToFunctionPassAdaptor (FunctionToLoopPassAdaptor OurLoopPass).

(** *** Effects

    The driver's effects on the outside are the calls it makes, in order,
    and the string it may store through [ErrorMessage]. *)

Definition LLVMBool := Z.

(** [llvm::Expected<T>] as [PassPlugin::Load] returns it: a value, or an
    error that is a [StringError] carrying its message. *)
Inductive Expected (T : Type) :=
| Value (v : T)
| StringError (Message : string).
Arguments Value {T} v.
Arguments StringError {T} Message.

Section Driver.

(** A loaded plugin, and the loader (it reads the file system). *)
Variable PassPlugin : Type.
Variable PassPlugin_Load : string → Expected PassPlugin.

Inductive Event :=
| NewPassBuilder (TM : N) (PTO : PTO.t)
| PassPlugin_Load_call (Filename : string)
| registerPassBuilderCallbacks (Plugin : PassPlugin)
| registerPass_DefaultAAPipeline
| registerPass_TargetLibraryAnalysis (TargetTriple : string)
| registerModuleAnalyses
| registerCGSCCAnalyses
| registerFunctionAnalyses
| registerLoopAnalyses
| crossRegisterProxies
| run (MPM : ModulePassManager) (M : N).

(** [strings] is the memory reachable through [char **] pointers: the
    string each pointed-to [char *] currently designates. *)
Record World := mkWorld {
  trace : list Event;
  strings : gmap N string
}.

(** A statement either falls through with a value or leaves the function
    with its return value. *)
Inductive Step (A : Type) :=
| Next (a : A)
| Return (status : LLVMBool).
Arguments Next {A} a.
Arguments Return {A} status.

Definition Exec (A : Type) := World → Step A * World.

#[local] Instance Exec_ret : MRet Exec := λ A a w, (Next a, w).

#[local] Instance Exec_bind : MBind Exec := λ A B k m w,
  match m w with
  | (Next a, w') => k a w'
  | (Return s, w') => (Return s, w')
  end.

Definition return_ {A} (status : LLVMBool) : Exec A := λ w, (Return status, w).

Definition emit (e : Event) : Exec unit :=
  λ w, (Next tt, {| trace := trace w ++ [e]; strings := strings w |}).

(** [*p = strdup (s)]. *)
Definition store (p : N) (s : string) : Exec unit :=
  λ w, (Next tt, {| trace := trace w; strings := <[p := s]> (strings w) |}).

Definition skip : Exec unit := mret tt.

(** [LLVM_Optimize_Module], lines 579-666.  [M] and [TM] are the addresses
    of the module and the target machine; [TargetTriple] is
    [M->getTargetTriple ()]; a null [PassPluginName] or [ErrorMessage] is
    [None]. *)
Definition LLVM_Optimize_Module_body (M TM : N) (TargetTriple : string)
  (CodeOptLevel SizeOptLevel : Z)
  (NeedLoopInfo NoUnrollLoops NoLoopVectorization NoSLPVectorization
   MergeFunctions PrepareForThinLTO PrepareForLTO RerollLoops : bool)
  (PassPluginName : option string) (ErrorMessage : option N)
  : Exec LLVMBool :=
  let PTO := PTO_of NoUnrollLoops NoLoopVectorization NoSLPVectorization
               MergeFunctions in
  emit (NewPassBuilder TM PTO) ;;
  match PassPluginName with
  | Some Name =>
      emit (PassPlugin_Load_call Name) ;;
      match PassPlugin_Load Name with
      | StringError Message =>
          match ErrorMessage with
          | Some p => store p Message
          | None => skip
          end ;;
          return_ 1
      | Value Plugin => emit (registerPassBuilderCallbacks Plugin)
      end
  | None => skip
  end ;;
  emit registerPass_DefaultAAPipeline ;;
  emit (registerPass_TargetLibraryAnalysis TargetTriple) ;;
  emit registerModuleAnalyses ;;
  emit registerCGSCCAnalyses ;;
  emit registerFunctionAnalyses ;;
  emit registerLoopAnalyses ;;
  emit crossRegisterProxies ;;
  let MPM := MPM_assembled CodeOptLevel NeedLoopInfo PrepareForThinLTO
               PrepareForLTO in
  emit (run MPM M) ;;
  mret 0.

(** The call as its caller sees it: the returned status and the world
    after it. *)
Definition LLVM_Optimize_Module (M TM : N) (TargetTriple : string)
  (CodeOptLevel SizeOptLevel : Z)
  (NeedLoopInfo NoUnrollLoops NoLoopVectorization NoSLPVectorization
   MergeFunctions PrepareForThinLTO PrepareForLTO RerollLoops : bool)
  (PassPluginName : option string) (ErrorMessage : option N)
  (w : World) : LLVMBool * World :=
  match LLVM_Optimize_Module_body M TM TargetTriple CodeOptLevel SizeOptLevel
          NeedLoopInfo NoUnrollLoops NoLoopVectorization NoSLPVectorization
          MergeFunctions PrepareForThinLTO PrepareForLTO RerollLoops
          PassPluginName ErrorMessage w with
  | (Next status, w') => (status, w')
  | (Return status, w') => (status, w')
  end.

(** Observations on a trace: the seven analysis registrations of lines
    630-643, in order; which events are registrations; which are runs of a
    pass manager; and whether the plugin step lets the driver go on. *)
Definition registrations (TargetTriple : string) : list Event :=
  [registerPass_DefaultAAPipeline;
   registerPass_TargetLibraryAnalysis TargetTriple;
   registerModuleAnalyses;
   registerCGSCCAnalyses;
   registerFunctionAnalyses;
   registerLoopAnalyses;
   crossRegisterProxies].

Definition is_registration (e : Event) : bool :=
  match e with
  | registerPass_DefaultAAPipeline | registerPass_TargetLibraryAnalysis _
  | registerModuleAnalyses | registerCGSCCAnalyses
  | registerFunctionAnalyses | registerLoopAnalyses
  | crossRegisterProxies => true
  | _ => false
  end.

Definition is_run (e : Event) : bool :=
  match e with run _ _ => true | _ => false end.

Definition plugin_loads (PassPluginName : option string) : bool :=
  match PassPluginName with
  | None => true
  | Some Name =>
      match PassPlugin_Load Name with
      | Value _ => true
      | StringError _ => false
      end
  end.

Definition plugin_events (PassPluginName : option string) : list Event :=
  match PassPluginName with
  | None => []
  | Some Name =>
      PassPlugin_Load_call Name ::
      match PassPlugin_Load Name with
      | Value Plugin => [registerPassBuilderCallbacks Plugin]
      | StringError _ => []
      end
  end.

End Driver.

(** A loader for the examples: it knows one plugin and fails on every
    other name; and a world in which nothing has happened yet. *)
Definition example_Load (Name : string) : Expected unit :=
  if String.eqb Name "libpass.so" then Value tt
  else StringError "Could not load library".

Definition example_world : World unit :=
  {| trace := []; strings := ∅ |}.

End Orchestrator.

(** ** The alias metadata builder *)

Module TBAA.

(** Metadata nodes as the wrapper obtains them: from [MDNode::get] on an
    operand list, or from an [MDBuilder] method, recorded with the
    arguments of the call. *)
#[warnings="-register-all"] Inductive Metadata :=
| createString (Str : string)
| createConstant_Int64 (V : N)
| createTBAARoot (Name : string)
| MDNode_get (Ops : list Metadata)
| createTBAAAccessTag (BaseType AccessType : Metadata) (Offset Size : N)
    (IsImmutable : bool).

Definition MDNode := Metadata.

(** Lines 64-69. *)
Definition Create_TBAA_Root : MDNode := createTBAARoot "Ada Root".

(** Lines 237-246. *)
Definition Create_TBAA_Scalar_Type_Node (name : string) (size : N)
  (parent : MDNode) : MDNode :=
  let MDname := createString name in
  let MDsize := createConstant_Int64 size in
  MDNode_get [parent; MDsize; MDname].

(** Lines 299-306. *)
Definition Create_TBAA_Access_Tag (BaseType AccessType : MDNode)
  (offset size : N) : MDNode :=
  createTBAAAccessTag BaseType AccessType offset size false.

(** The final argument a tag was built with ([None] on a node that is not
    a tag). *)
Definition tag_flag (MD : MDNode) : option bool :=
  match MD with
  | createTBAAAccessTag _ _ _ _ IsImmutable => Some IsImmutable
  | _ => None
  end.

End TBAA.

(** ** The constant synthesis helper: rendering *)

Module FP.

Local Open Scope N_scope.

Inductive fltSemantics :=
| IEEEhalf | BFloat | IEEEsingle | IEEEdouble | x87DoubleExtended
| IEEEquad | PPCDoubleDouble.

#[global] Instance fltSemantics_eq_dec : EqDecision fltSemantics.
Proof. solve_decision. Defined.

Inductive fltCategory := fcInfinity | fcNaN | fcNormal | fcZero.

(** What [Convert_FP_To_String] observes of an [APFloat]; [bits] is
    [bitcastToAPInt ().getZExtValue ()]. *)
Record APFloat := mkAPFloat {
  getSemantics : fltSemantics;
  getCategory : fltCategory;
  bits : N
}.

Definition isInfinity (APF : APFloat) : bool :=
  match getCategory APF with fcInfinity => true | _ => false end.

Definition isNaN (APF : APFloat) : bool :=
  match getCategory APF with fcNaN => true | _ => false end.

(** [llvm::utohexstr (X, /*Lower=*/true)]: the hexadecimal digits of [X],
    most significant first, ["0"] for zero.  A [uint64_t] has at most
    sixteen of them. *)
Definition hexdigit (X : N) : ascii :=
  if X <? 10 then ascii_of_N (48 + X) else ascii_of_N (97 + X - 10).

Fixpoint utohexstr_loop (n : nat) (X : N) (acc : string) : string :=
  match n with
  | O => acc
  | S n' =>
      if X =? 0 then acc
      else utohexstr_loop n' (N.shiftr X 4)
             (String (hexdigit (N.land X 15)) acc)
  end.

Definition utohexstr (X : N) : string :=
  utohexstr_loop 16 X (if X =? 0 then "0"%string else ""%string).

(** Reading a string of lower-case hexadecimal digits back as a number. *)
Definition hexdigit_value (c : ascii) : N :=
  let n := N_of_ascii c in
  if (48 <=? n) && (n <=? 57) then n - 48
  else if (97 <=? n) && (n <=? 102) then n - 87
  else 0.

Fixpoint hex_value (s : string) : N :=
  match s with
  | EmptyString => 0
  | String c s' =>
      hexdigit_value c * 16 ^ N.of_nat (String.length s') + hex_value s'
  end.

Section Rendering.

(** [APF.toString (StrVal, 0, 0, false)], LLVM's decimal rendering of a
    finite value; [APFloatText.toString 0] below follows it. *)
Variable toString : APFloat → string.

(** Lines 695-727.  The result is the string left in [Buf] and the
    returned length. *)
Definition Convert_FP_To_String (APF : APFloat) : string * Z :=
  if bool_decide (getSemantics APF = IEEEsingle)
     || bool_decide (getSemantics APF = IEEEdouble)
  then
    if negb (isInfinity APF) && negb (isNaN APF) then
      let StrVal := toString APF in
      let StrVal :=
        if bool_decide (getSemantics APF = IEEEsingle)
        then (StrVal +:+ "f")%string else StrVal in
      (StrVal, Z.of_nat (String.length StrVal))
    else
      let S := ("0x" +:+ utohexstr (bits APF) +:+ "p0")%string in
      (S, Z.of_nat (String.length S))
  else
    let Buf := "<unsupported floating point type>"%string in
    (Buf, Z.of_nat (String.length Buf)).

End Rendering.

End FP.

(** ** The value lifetime tracker *)

Module Tracker.

Local Open Scope N_scope.

(** A [GNATCallbackVH] object.  [ValPtr] is the value its [CallbackVH]
    base watches; [val] and [fn] are the members the class adds.  Values
    and functions are known by their addresses. *)
Record GNATCallbackVH := mkGNATCallbackVH {
  ValPtr : N;
  val : N;
  fn : N
}.

Inductive Event :=
| release (this : N)
| call (Fn : N) (V : N).

#[global] Instance Event_eq_dec : EqDecision Event.
Proof. solve_decision. Defined.

(** [heap] holds the objects [new] has returned and [delete] has not yet
    taken back; [ValueHandles] is LLVM's table from a value to the handles
    on its use list; [trace] records storage releases and callback
    invocations in the order they happen. *)
Record State := mkState {
  heap : gmap N GNATCallbackVH;
  ValueHandles : gmap N (list N);
  trace : list Event
}.

Definition init : State :=
  {| heap := ∅; ValueHandles := ∅; trace := [] |}.

(** Reading a member of an object, or deleting it, through a pointer to
    storage that is no longer live has no defined behaviour: execution
    stops there with the state reached so far. *)
Inductive Outcome :=
| Done (s : State)
| UseAfterFree (this : N) (s : State).

Definition handles_of (V : N) (s : State) : list N :=
  default [] (ValueHandles s !! V).

(** Lines 975-978 under [new], line 984: the constructor stores [V] and
    [Fn], and its [CallbackVH (V)] base puts the new handle on [V]'s use
    list.  The pointer [CB] is dropped when the function returns. *)
Definition Notify_On_Value_Delete (V Fn : N) (s : State) : State :=
  let CB := fresh (dom (heap s)) in
  {| heap := <[CB := {| ValPtr := V; val := V; fn := Fn |}]> (heap s);
     ValueHandles := <[V := CB :: handles_of V s]> (ValueHandles s);
     trace := trace s |}.

(** [delete this]: the base destructor takes the handle off the use list
    of the value it watches, then the storage is released. *)
Definition delete_this (this : N) (s : State) : Outcome :=
  match heap s !! this with
  | Some o =>
      Done {| heap := delete this (heap s);
              ValueHandles :=
                <[ValPtr o := filter (λ h, h ≠ this) (handles_of (ValPtr o) s)]>
                  (ValueHandles s);
              trace := trace s ++ [release this] |}
  | None => UseAfterFree this s
  end.

(** [(this->fn) (this->val)]: both members are read from the object at
    [this], then the function is called. *)
Definition call_fn_val (this : N) (s : State) : Outcome :=
  match heap s !! this with
  | Some o =>
      Done {| heap := heap s; ValueHandles := ValueHandles s;
              trace := trace s ++ [call (fn o) (val o)] |}
  | None => UseAfterFree this s
  end.

Definition then_ (o : Outcome) (k : State → Outcome) : Outcome :=
  match o with
  | Done s => k s
  | UseAfterFree this s => UseAfterFree this s
  end.

(** [GNATCallbackVH::deleted], lines 968-973, statement by statement. *)
Definition deleted (this : N) (s : State) : Outcome :=
  then_ (delete_this this s) (call_fn_val this).

(** The order of the two statements as the specification gives it: the
    callback first, the release after.  Not the code; kept to compare. *)
Definition deleted_in_spec_order (this : N) (s : State) : Outcome :=
  then_ (call_fn_val this s) (delete_this this).

(** LLVM's side of a value's destruction ([ValueHandleBase::ValueIsDeleted]):
    [deleted ()] is called on each handle that is on the value's use list. *)
Section ValueIsDeleted.

Variable deleted_impl : N → State → Outcome.

Fixpoint notify (hs : list N) (s : State) : Outcome :=
  match hs with
  | [] => Done s
  | h :: hs' => then_ (deleted_impl h s) (notify hs')
  end.

Definition ValueIsDeleted (V : N) (s : State) : Outcome :=
  notify (handles_of V s) s.

End ValueIsDeleted.

Definition final (o : Outcome) : State :=
  match o with Done s => s | UseAfterFree _ s => s end.

(** How often [Fn] has been called with [V]. *)
Definition calls (Fn V : N) (s : State) : nat :=
  length (filter (λ e, e = call Fn V) (trace s)).

End Tracker.

(** * Further parts of the wrapper

    The struct nodes of the alias metadata builder with the metadata
    readers, the comparison of integer constants, the predecessor queries,
    the attribute setters and queries, and the tracker's bookkeeping. *)

(** ** Struct nodes of the alias metadata builder and the metadata readers *)

Module TBAANodes.

Import TBAA.

Definition INT_MAX : Z := 2147483647.

(** [SmallVector<Metadata *, 8> Ops (n)] is [n] null slots; a slot that has
    been assigned holds its operand. *)
Abbreviation Operands := (list (option Metadata)).

(** [Ops[i] = x].  An index past the end is outside the vector: no defined
    result. *)
Definition set_op (i : nat) (x : Metadata) (Ops : Operands)
  : option Operands :=
  if decide (i < length Ops)%nat then Some (<[i := Some x]> Ops) else None.

(** [MDNode::get (ctx, Ops)].  The nodes of this model have no null
    operand, so every slot has to be assigned. *)
Definition MDNode_get_Ops (Ops : Operands) : option MDNode :=
  MDNode_get <$> mapM id Ops.

(** Lines 260-267, the loop of [Create_TBAA_Struct_Type_Node]: [remaining]
    is [num_fields - i].  Reading [fields[i]], [offsets[i]] or [sizes[i]]
    past the end of the caller's array has no defined result. *)
Fixpoint Struct_Type_Node_loop (remaining i : nat) (fields : list MDNode)
  (offsets sizes : list N) (Ops : Operands) : option Operands :=
  match remaining with
  | O => Some Ops
  | S remaining' =>
      field ← fields !! i;
      Ops ← set_op (3 + i * 3) field Ops;
      offset ← offsets !! i;
      Ops ← set_op (3 + i * 3 + 1) (createConstant_Int64 offset) Ops;
      size ← sizes !! i;
      Ops ← set_op (3 + i * 3 + 2) (createConstant_Int64 size) Ops;
      Struct_Type_Node_loop remaining' (S i) fields offsets sizes Ops
  end.

(** Lines 248-270.  [num_fields] is an [int]: the vector's size
    [num_fields * 3 + 3] is computed in [int] and has to be a size. *)
Definition Create_TBAA_Struct_Type_Node (name : string) (size : N)
  (num_fields : Z) (parent : MDNode) (fields : list MDNode)
  (offsets sizes : list N) : option MDNode :=
  if decide (0 ≤ num_fields * 3 + 3 ≤ INT_MAX)%Z then
    let Ops := replicate (Z.to_nat (num_fields * 3 + 3)) None in
    Ops ← set_op 0 parent Ops;
    Ops ← set_op 1 (createConstant_Int64 size) Ops;
    Ops ← set_op 2 (createString name) Ops;
    Ops ← Struct_Type_Node_loop (Z.to_nat num_fields) 0 fields offsets sizes
            Ops;
    MDNode_get_Ops Ops
  else None.

(** Lines 280-287, the loop of [Create_TBAA_Struct_Node]. *)
Fixpoint Struct_Node_loop (remaining i : nat) (types : list MDNode)
  (offsets sizes : list N) (Ops : Operands) : option Operands :=
  match remaining with
  | O => Some Ops
  | S remaining' =>
      offset ← offsets !! i;
      Ops ← set_op (i * 3) (createConstant_Int64 offset) Ops;
      size ← sizes !! i;
      Ops ← set_op (i * 3 + 1) (createConstant_Int64 size) Ops;
      type ← types !! i;
      Ops ← set_op (i * 3 + 2) type Ops;
      Struct_Node_loop remaining' (S i) types offsets sizes Ops
  end.

(** Lines 272-290. *)
Definition Create_TBAA_Struct_Node (num_fields : Z) (types : list MDNode)
  (offsets sizes : list N) : option MDNode :=
  if decide (0 ≤ num_fields * 3 ≤ INT_MAX)%Z then
    let Ops := replicate (Z.to_nat (num_fields * 3)) None in
    Ops ← Struct_Node_loop (Z.to_nat num_fields) 0 types offsets sizes Ops;
    MDNode_get_Ops Ops
  else None.

(** The operand lists the two loops are meant to produce, field by
    field. *)
Fixpoint type_node_fields (fields : list MDNode) (offsets sizes : list N)
  : list Metadata :=
  match fields, offsets, sizes with
  | field :: fields', offset :: offsets', size :: sizes' =>
      field :: createConstant_Int64 offset :: createConstant_Int64 size
      :: type_node_fields fields' offsets' sizes'
  | _, _, _ => []
  end.

Fixpoint struct_node_fields (types : list MDNode) (offsets sizes : list N)
  : list Metadata :=
  match types, offsets, sizes with
  | type :: types', offset :: offsets', size :: sizes' =>
      createConstant_Int64 offset :: createConstant_Int64 size :: type
      :: struct_node_fields types' offsets' sizes'
  | _, _, _ => []
  end.

(** Which metadata are [MDNode]s ([dyn_cast<MDNode>] succeeds on them). *)
Definition is_MDNode (MD : Metadata) : bool :=
  match MD with
  | createString _ | createConstant_Int64 _ => false
  | _ => true
  end.

Section Readers.

(** The operands of a node that an [MDBuilder] method made are laid out by
    LLVM. *)
Variable MDBuilder_operands : Metadata → option (list Metadata).

Definition operands (MD : MDNode) : option (list Metadata) :=
  match MD with
  | MDNode_get Ops => Some Ops
  | createTBAARoot _ | createTBAAAccessTag _ _ _ _ _ => MDBuilder_operands MD
  | createString _ | createConstant_Int64 _ => None
  end.

(** Lines 508-513. *)
Definition Get_Metadata_Num_Operands (MD : MDNode) : option N :=
  Ops ← operands MD; Some (N.of_nat (length Ops)).

(** Lines 515-520.  [getOperand (i)] needs [i] in range, and
    [mdconst::extract<ConstantInt>] needs a constant there. *)
Definition Get_Metadata_Operand_Constant_Value (MD : MDNode) (i : N)
  : option N :=
  Ops ← operands MD;
  Op ← Ops !! N.to_nat i;
  match Op with
  | createConstant_Int64 V => Some V
  | _ => None
  end.

(** Lines 522-527.  The inner [None] is the null pointer [dyn_cast] gives
    for an operand that is not an [MDNode]. *)
Definition Get_Metadata_Operand (MD : MDNode) (i : N)
  : option (option MDNode) :=
  Ops ← operands MD;
  Op ← Ops !! N.to_nat i;
  Some (if is_MDNode Op then Some Op else None).

End Readers.

(** Nodes for the examples: two scalars under the root, and the arrays of
    a two-field aggregate made of them. *)
Definition example_A : MDNode :=
  Create_TBAA_Scalar_Type_Node "A" 4 Create_TBAA_Root.
Definition example_B : MDNode :=
  Create_TBAA_Scalar_Type_Node "B" 8 Create_TBAA_Root.
Definition example_fields : list MDNode := [example_A; example_B].
Definition example_offsets : list N := [0%N; 4%N].
Definition example_sizes : list N := [4%N; 8%N].
Definition example_no_operands : Metadata → option (list Metadata) :=
  λ _, None.

End TBAANodes.

(** ** Comparing integer constants *)

Module Constants.

Local Open Scope Z_scope.

(** An [APInt]: a bit width and the unsigned reading of its bits. *)
Record APInt := mkAPInt {
  getBitWidth : N;
  getZExtValue : Z
}.

(** The values a [ConstantInt] can hold: at least one bit, and a bit
    pattern of that width. *)
Definition APInt_valid (i : APInt) : Prop :=
  (0 < getBitWidth i)%N ∧ 0 ≤ getZExtValue i < 2 ^ Z.of_N (getBitWidth i).

(** The two's-complement reading. *)
Definition getSExtValue (i : APInt) : Z :=
  if getZExtValue i <? 2 ^ (Z.of_N (getBitWidth i) - 1)
  then getZExtValue i
  else getZExtValue i - 2 ^ Z.of_N (getBitWidth i).

(** [APInt::sext (width)], used to widen: the new bits are copies of the
    sign bit. *)
Definition sext (i : APInt) (width : N) : APInt :=
  {| getBitWidth := width;
     getZExtValue := getSExtValue i mod 2 ^ Z.of_N width |}.

(** [APInt::operator==], which compares values of one width. *)
Definition APInt_eq (i1 i2 : APInt) : bool :=
  (getBitWidth i1 =? getBitWidth i2)%N && (getZExtValue i1 =? getZExtValue i2).

(** Lines 747-758. *)
Definition Equal_Constants (v1 v2 : APInt) : bool :=
  let i1 := v1 in
  let i2 := v2 in
  if (getBitWidth i2 <? getBitWidth i1)%N then
    let i2 := sext i2 (getBitWidth i1) in APInt_eq i1 i2
  else if (getBitWidth i1 <? getBitWidth i2)%N then
    let i1 := sext i1 (getBitWidth i2) in APInt_eq i1 i2
  else APInt_eq i1 i2.

End Constants.

(** ** Queries on the predecessors of a basic block *)

Module Blocks.

(** The control-flow graph as the two queries see it: for each block that
    has a terminator, the successors of that terminator, one entry per
    operand (a conditional branch with both targets equal lists its target
    twice). *)
Abbreviation Terminators := (gmap N (list N)).

(** [predecessors (BB)]: one entry for every terminator operand that is
    [BB], naming the block of that terminator. *)
Definition predecessors (T : Terminators) (BB : N) : list N :=
  '(PBB, succs) ← map_to_list T;
  s ← succs;
  if decide (s = BB) then [PBB] else [].

(** Lines 922-926, the loop.  [getTerminator ()] of a block without one is
    a null pointer, and calling through it has no defined result. *)
Fixpoint All_Preds_loop (T : Terminators) (preds : list N) : option bool :=
  match preds with
  | [] => Some true
  | PBB :: preds' =>
      match T !! PBB with
      | None => None
      | Some succs =>
          if negb (N.of_nat (length succs) =? 1)%N then Some false
          else All_Preds_loop T preds'
      end
  end.

(** Lines 918-927. *)
Definition All_Preds_Are_Unc_Branches (T : Terminators) (BB : N)
  : option bool :=
  All_Preds_loop T (predecessors T BB).

(** Lines 929-934: [BB->hasNPredecessors (0)]. *)
Definition Is_Dead_Basic_Block (T : Terminators) (BB : N) : bool :=
  (N.of_nat (length (predecessors T BB)) =? 0)%N.

(** A graph for the examples: 1 branches on a condition to 2 and 3, which
    both jump to 4; 4 returns; 5 jumps to 4 as well but nothing reaches
    it. *)
Definition example_graph : Terminators :=
  {[ 1%N := [2%N; 3%N]; 2%N := [4%N]; 3%N := [4%N]; 4%N := [];
     5%N := [4%N] ]}.

End Blocks.

(** ** Attribute setters and queries *)

Module Attributes.

(** The attribute kinds the wrapper names. *)
Inductive AttrKind :=
| Cold | AlwaysInline | InlineHint | NoInline | ReadOnly | Nest | NoAlias
| NoCapture | NonNull | WriteOnly.

#[global] Instance AttrKind_eq_dec : EqDecision AttrKind.
Proof. solve_decision. Defined.

Definition AttrKind_to_nat (k : AttrKind) : nat :=
  match k with
  | Cold => 0 | AlwaysInline => 1 | InlineHint => 2 | NoInline => 3
  | ReadOnly => 4 | Nest => 5 | NoAlias => 6 | NoCapture => 7
  | NonNull => 8 | WriteOnly => 9
  end.

Definition AttrKind_of_nat (n : nat) : AttrKind :=
  match n with
  | 0 => Cold | 1 => AlwaysInline | 2 => InlineHint | 3 => NoInline
  | 4 => ReadOnly | 5 => Nest | 6 => NoAlias | 7 => NoCapture
  | 8 => NonNull | _ => WriteOnly
  end.

#[global] Instance AttrKind_countable : Countable AttrKind.
Proof.
  refine (inj_countable' AttrKind_to_nat AttrKind_of_nat _).
  intros []; reflexivity.
Defined.

(** Where an attribute sits in an [AttributeList]: on the function (or
    call) itself, on the return value, or on the parameter [ArgNo]. *)
Inductive AttrIndex :=
| FunctionIndex
| ReturnIndex
| ParamIndex (ArgNo : N).

#[global] Instance AttrIndex_eq_dec : EqDecision AttrIndex.
Proof. solve_decision. Defined.

#[global] Instance AttrIndex_countable : Countable AttrIndex.
Proof.
  refine (inj_countable'
            (λ i, match i with
                  | FunctionIndex => inl false
                  | ReturnIndex => inl true
                  | ParamIndex ArgNo => inr ArgNo
                  end)
            (λ x, match x with
                  | inl false => FunctionIndex
                  | inl true => ReturnIndex
                  | inr ArgNo => ParamIndex ArgNo
                  end) _).
  intros []; reflexivity.
Defined.

(** The enum attributes of a function or of a call site, as a set. *)
Abbreviation AttributeList := (gset (AttrIndex * AttrKind)).

Definition addAttributeAtIndex (A : AttributeList) (i : AttrIndex)
  (k : AttrKind) : AttributeList := {[ (i, k) ]} ∪ A.

Definition hasAttributeAtIndex (A : AttributeList) (i : AttrIndex)
  (k : AttrKind) : bool := bool_decide ((i, k) ∈ A).

(** The values [Add_Nest_Attribute] tells apart with [dyn_cast]. *)
Inductive Value :=
| Function (Attrs : AttributeList)
| CallInst (Attrs : AttributeList)
| InvokeInst (Attrs : AttributeList)
| OtherValue (id : N).

(** Lines 148-158. *)
Definition Add_Nest_Attribute (v : Value) (idx : N) : Value :=
  match v with
  | Function fn => Function (addAttributeAtIndex fn (ParamIndex idx) Nest)
  | CallInst ci => CallInst (addAttributeAtIndex ci (ParamIndex idx) Nest)
  | InvokeInst ii => InvokeInst (addAttributeAtIndex ii (ParamIndex idx) Nest)
  | OtherValue id => OtherValue id
  end.

(** Lines 223-228. *)
Definition Has_Nest_Attribute (fn : AttributeList) (idx : N) : bool :=
  hasAttributeAtIndex fn (ParamIndex idx) Nest.

(** Lines 230-235. *)
Definition Call_Param_Has_Nest (CI : AttributeList) (idx : N) : bool :=
  hasAttributeAtIndex CI (ParamIndex idx) Nest.

(** Lines 111-130. *)
Definition Add_Inline_Always_Attribute (fn : AttributeList) : AttributeList :=
  addAttributeAtIndex fn FunctionIndex AlwaysInline.
Definition Add_Inline_Hint_Attribute (fn : AttributeList) : AttributeList :=
  addAttributeAtIndex fn FunctionIndex InlineHint.
Definition Add_Inline_No_Attribute (fn : AttributeList) : AttributeList :=
  addAttributeAtIndex fn FunctionIndex NoInline.

(** Lines 209-221. *)
Definition Has_Inline_Attribute (fn : AttributeList) : bool :=
  hasAttributeAtIndex fn FunctionIndex InlineHint.
Definition Has_Inline_Always_Attribute (fn : AttributeList) : bool :=
  hasAttributeAtIndex fn FunctionIndex AlwaysInline.

(** The attributes of a value that can carry a parameter attribute. *)
Definition attributes_of (v : Value) : option AttributeList :=
  match v with
  | Function A | CallInst A | InvokeInst A => Some A
  | OtherValue _ => None
  end.

End Attributes.

(** ** The tracker's bookkeeping *)

Module TrackerInvariant.

Import Tracker.

(** The use lists and the heap agree: a handle is on the use list of a
    value exactly when it is a live registration watching that value, no
    use list names a handle twice, and every registration's [val] is the
    value it watches. *)
Definition consistent (s : State) : Prop :=
  (∀ V h, h ∈ handles_of V s ↔ ∃ o, heap s !! h = Some o ∧ ValPtr o = V) ∧
  (∀ V, NoDup (handles_of V s)) ∧
  (∀ h o, heap s !! h = Some o → val o = ValPtr o).

End TrackerInvariant.

(** ** LLVM's text for a finite value

    [Convert_FP_To_String] renders a finite single or double with
    [APF.toString (StrVal, 0, 0, false)]: format precision 0 (the natural
    precision of the format), maximal padding 0 (always scientific
    notation) and zeros not truncated.  This module follows
    [IEEEFloat::toString] of LLVM's [APFloat.cpp] along the path those
    arguments select, for the two formats the wrapper passes to it. *)

Module APFloatText.

Import FP.
Local Open Scope Z_scope.

(** The format: bits of precision (hidden bit included) and of exponent. *)
Definition precision (S : fltSemantics) : Z :=
  match S with
  | IEEEsingle => 24
  | IEEEdouble => 53
  | _ => 0
  end.

Definition exponent_bits (S : fltSemantics) : Z :=
  match S with
  | IEEEsingle => 8
  | IEEEdouble => 11
  | _ => 0
  end.

Definition bias (S : fltSemantics) : Z := 2 ^ (exponent_bits S - 1) - 1.

(** The fields of the bit pattern. *)
Definition fraction (APF : APFloat) : Z :=
  Z.of_N (bits APF) mod 2 ^ (precision (getSemantics APF) - 1).

Definition biased_exponent (APF : APFloat) : Z :=
  (Z.of_N (bits APF) / 2 ^ (precision (getSemantics APF) - 1))
  mod 2 ^ exponent_bits (getSemantics APF).

Definition isNegative (APF : APFloat) : bool :=
  Z.testbit (Z.of_N (bits APF))
    (precision (getSemantics APF) - 1 + exponent_bits (getSemantics APF)).

(** The value is [significand * 2 ^ (exponent - (precision - 1))]; a
    denormal has no hidden bit and the least exponent. *)
Definition significand (APF : APFloat) : Z :=
  if biased_exponent APF =? 0 then fraction APF
  else 2 ^ (precision (getSemantics APF) - 1) + fraction APF.

Definition exponent (APF : APFloat) : Z :=
  if biased_exponent APF =? 0 then 1 - bias (getSemantics APF)
  else biased_exponent APF - bias (getSemantics APF).

(** [APInt::getActiveBits] and [APInt::countTrailingZeros] on a
    significand. *)
Definition getActiveBits (n : Z) : Z :=
  if n <=? 0 then 0 else Z.log2 n + 1.

Fixpoint countTrailingZeros_pos (p : positive) : Z :=
  match p with
  | xO p' => 1 + countTrailingZeros_pos p'
  | _ => 0
  end.

Definition countTrailingZeros (n : Z) : Z :=
  match n with
  | Zpos p => countTrailingZeros_pos p
  | _ => 0
  end.

(** [AdjustToPrecision (APInt &significand, int &exp, FormatPrecision)]:
    powers of ten that cannot matter at the wanted precision are divided
    out. *)
Definition AdjustToPrecision_significand (significand exp FormatPrecision : Z)
  : Z * Z :=
  let bits := getActiveBits significand in
  let bitsRequired := (FormatPrecision * 196 + 58) / 59 in
  if bits <=? bitsRequired then (significand, exp)
  else
    let tensRemovable := (bits - bitsRequired) * 59 / 196 in
    if tensRemovable =? 0 then (significand, exp)
    else (significand / 10 ^ tensRemovable, exp + tensRemovable).

(** The loop that fills the buffer: decimal digits, least significant
    first, the trailing zeros counted into [exp] instead of stored. *)
Fixpoint fill_buffer (fuel : nat) (significand : Z) (inTrail : bool)
  (exp : Z) (buffer : list Z) : list Z * Z :=
  match fuel with
  | O => (buffer, exp)
  | S fuel' =>
      if significand =? 0 then (buffer, exp)
      else
        let d := significand mod 10 in
        let significand := significand / 10 in
        if inTrail && (d =? 0)
        then fill_buffer fuel' significand inTrail (exp + 1) buffer
        else fill_buffer fuel' significand false exp (buffer ++ [d])
  end.

(** How many digits at the front of a list are the digit [x]. *)
Fixpoint leading (x : Z) (l : list Z) : nat :=
  match l with
  | d :: l' => if d =? x then S (leading x l') else O
  | [] => O
  end.

(** [AdjustToPrecision (SmallVectorImpl<char> &buffer, int &exp,
    FormatPrecision)]: the buffer is cut down to [FormatPrecision] digits,
    rounding half up on the first digit dropped; zeros that end up at the
    low end are dropped too. *)
Definition AdjustToPrecision_buffer (buffer : list Z) (exp FormatPrecision : Z)
  : list Z * Z :=
  let N := Z.of_nat (length buffer) in
  if N <=? FormatPrecision then (buffer, exp)
  else
    let FirstSignificant := N - FormatPrecision in
    let kept := drop (Z.to_nat FirstSignificant) buffer in
    if default 0 (buffer !! Z.to_nat (FirstSignificant - 1)) <? 5 then
      let zeros := leading 0 kept in
      (drop zeros kept, exp + (FirstSignificant + Z.of_nat zeros))
    else
      let nines := leading 9 kept in
      match drop nines kept with
      | [] => ([1], exp + N)
      | d :: rest => (d + 1 :: rest, exp + (FirstSignificant + Z.of_nat nines))
      end.

(** The decimal digits (least significant first) and the decimal exponent
    of the last of them, as [toString] has them before it lays out the
    text. *)
Definition decimal (FormatPrecision : Z) (APF : APFloat) : list Z * Z :=
  let exp := exponent APF - (precision (getSemantics APF) - 1) in
  let significand := significand APF in
  let trailingZeros := countTrailingZeros significand in
  let exp := exp + trailingZeros in
  let significand := Z.shiftr significand trailingZeros in
  let '(significand, exp) :=
    if exp =? 0 then (significand, exp)
    else if 0 <? exp then (Z.shiftl significand exp, 0)
    else (significand * 5 ^ (- exp), exp) in
  let '(significand, exp) :=
    AdjustToPrecision_significand significand exp FormatPrecision in
  let '(buffer, exp) :=
    fill_buffer (Z.to_nat (getActiveBits significand)) significand true exp
      [] in
  AdjustToPrecision_buffer buffer exp FormatPrecision.

Definition digit_char (d : Z) : ascii := ascii_of_N (Z.to_N (48 + d)).

Definition digits_string (ds : list Z) : string :=
  string_of_list_ascii (digit_char <$> ds).

(** The exponent's digits: the [do ... while (exp)] loop, least
    significant first. *)
Fixpoint expbuf (fuel : nat) (exp : Z) : list Z :=
  match fuel with
  | O => []
  | S fuel' =>
      (exp mod 10) ::
      (if exp / 10 =? 0 then [] else expbuf fuel' (exp / 10))
  end.

(** The exponent as it is written: its sign, then its digits, at least
    two of them. *)
Definition exponent_text (exp : Z) : string :=
  let expbuf := expbuf 10 (Z.abs exp) in
  let expbuf := if Z.of_nat (length expbuf) <? 2 then expbuf ++ [0]
                else expbuf in
  (if 0 <=? exp then "+" else "-") +:+ digits_string (rev expbuf).

(** The scientific form with zeros kept: first digit, point, the other
    digits, zeros up to [FormatPrecision], ['e'], the exponent.  LLVM
    asserts that the buffer is not empty. *)
Definition scientific (FormatPrecision : Z) (buffer : list Z) (exp : Z)
  : string :=
  let NDigits := Z.of_nat (length buffer) in
  let exp := exp + (NDigits - 1) in
  match rev buffer with
  | [] => ""
  | first :: others =>
      String (digit_char first) "." +:+ digits_string others
      +:+ (if NDigits - 1 <? FormatPrecision
           then digits_string
                  (replicate (Z.to_nat (FormatPrecision - NDigits + 1)) 0)
           else "")
      +:+ "e" +:+ exponent_text exp
  end.

(** [APF.toString (Str, FormatPrecision, 0, false)].  The zero case comes
    before the natural precision is substituted for a [FormatPrecision]
    of 0. *)
Definition toString (FormatPrecision : Z) (APF : APFloat) : string :=
  match getCategory APF with
  | fcInfinity => if isNegative APF then "-Inf" else "+Inf"
  | fcNaN => "NaN"
  | fcZero =>
      (if isNegative APF then "-" else "")
      +:+ "0.0"
      +:+ (if 1 <? FormatPrecision
           then digits_string (replicate (Z.to_nat (FormatPrecision - 1)) 0)
           else "")
      +:+ "e+00"
  | fcNormal =>
      let FormatPrecision :=
        if FormatPrecision =? 0
        then 2 + precision (getSemantics APF) * 59 / 196
        else FormatPrecision in
      let '(buffer, exp) := decimal FormatPrecision APF in
      (if isNegative APF then "-" else "")
      +:+ scientific FormatPrecision buffer exp
  end.

End APFloatText.

(** ** The tracker as the compiled program runs it

    [Tracker] follows the C++ abstract machine, which gives no meaning to
    line 972 once line 971 has released [this].  The compiled program goes
    on all the same: [operator delete] hands the storage back to the
    allocator, the members [val] and [fn] stay where they are in it, nothing
    allocates between the two statements, and the call of line 972 is made
    with what is read there.  This module follows that execution.

    A registration is known by the identity of its allocation, which no
    later allocation shares (an address may be handed out again, the
    allocation it stood for does not come back); every event names the
    registration it belongs to. *)

Module TrackerExec.

Local Open Scope N_scope.

Record GNATCallbackVH := mkGNATCallbackVH {
  ValPtr : N;
  val : N;
  fn : N
}.

#[global] Instance GNATCallbackVH_eq_dec : EqDecision GNATCallbackVH.
Proof. solve_decision. Defined.

(** [release this]: the storage of [this] goes back to the allocator.
    [call this Fn V]: the [deleted] of [this] calls [Fn (V)]. *)
Inductive Event :=
| release (this : N)
| call (this : N) (Fn : N) (V : N).

#[global] Instance Event_eq_dec : EqDecision Event.
Proof. solve_decision. Defined.

Definition subject (e : Event) : N :=
  match e with
  | release this => this
  | call this _ _ => this
  end.

(** [heap] holds the live objects; [released] holds the objects whose
    storage has been released, with the members as they were left;
    [ValueHandles] is LLVM's table from a value to the handles on its use
    list; [trace] records the events in the order they happen. *)
Record State := mkState {
  heap : gmap N GNATCallbackVH;
  released : gmap N GNATCallbackVH;
  ValueHandles : gmap N (list N);
  trace : list Event
}.

Definition init : State :=
  {| heap := ∅; released := ∅; ValueHandles := ∅; trace := [] |}.

(** A pointer that [new] never returned has nothing behind it, and one
    whose object has been released cannot be released again: execution
    stops there with the state reached so far. *)
Inductive Outcome :=
| Done (s : State)
| BadPointer (this : N) (s : State).

Definition handles_of (V : N) (s : State) : list N :=
  default [] (ValueHandles s !! V).

(** What [new] returns. *)
Definition new_handle (s : State) : N :=
  fresh (dom (heap s) ∪ dom (released s)).

(** Lines 975-978 under [new], line 984. *)
Definition Notify_On_Value_Delete (V Fn : N) (s : State) : State :=
  let CB := new_handle s in
  {| heap := <[CB := {| ValPtr := V; val := V; fn := Fn |}]> (heap s);
     released := released s;
     ValueHandles := <[V := CB :: handles_of V s]> (ValueHandles s);
     trace := trace s |}.

(** [delete this], line 971: the base destructor takes the handle off the
    use list of the value it watches, then the storage is released; the
    members stay as they are. *)
Definition delete_this (this : N) (s : State) : Outcome :=
  match heap s !! this with
  | Some o =>
      Done {| heap := delete this (heap s);
              released := <[this := o]> (released s);
              ValueHandles :=
                <[ValPtr o := filter (λ h, h ≠ this) (handles_of (ValPtr o) s)]>
                  (ValueHandles s);
              trace := trace s ++ [release this] |}
  | None => BadPointer this s
  end.

(** What is behind a pointer: a live object, or what a released one has
    left. *)
Definition object_at (this : N) (s : State) : option GNATCallbackVH :=
  match heap s !! this with
  | Some o => Some o
  | None => released s !! this
  end.

(** [(this->fn) (this->val)], line 972: both members are read through
    [this], then the function is called. *)
Definition call_fn_val (this : N) (s : State) : Outcome :=
  match object_at this s with
  | Some o =>
      Done {| heap := heap s; released := released s;
              ValueHandles := ValueHandles s;
              trace := trace s ++ [call this (fn o) (val o)] |}
  | None => BadPointer this s
  end.

Definition then_ (o : Outcome) (k : State → Outcome) : Outcome :=
  match o with
  | Done s => k s
  | BadPointer this s => BadPointer this s
  end.

(** [GNATCallbackVH::deleted], lines 968-973, statement by statement. *)
Definition deleted (this : N) (s : State) : Outcome :=
  then_ (delete_this this s) (call_fn_val this).

(** LLVM's side of a value's destruction ([ValueHandleBase::ValueIsDeleted]):
    [deleted ()] is called on each handle that is on the value's use list. *)
Fixpoint notify (hs : list N) (s : State) : Outcome :=
  match hs with
  | [] => Done s
  | h :: hs' => then_ (deleted h s) (notify hs')
  end.

Definition ValueIsDeleted (V : N) (s : State) : Outcome :=
  notify (handles_of V s) s.

(** What happens around the tracker: the compiler registers a callback on
    a value ([Notify_On_Value_Delete]), LLVM destroys a value. *)
Inductive Op :=
| track (V : N) (Fn : N)
| destroy (V : N).

#[global] Instance Op_eq_dec : EqDecision Op.
Proof. solve_decision. Defined.

Definition step (op : Op) (s : State) : Outcome :=
  match op with
  | track V Fn => Done (Notify_On_Value_Delete V Fn s)
  | destroy V => ValueIsDeleted V s
  end.

Fixpoint run (ops : list Op) (s : State) : Outcome :=
  match ops with
  | [] => Done s
  | op :: ops' => then_ (step op s) (run ops')
  end.



(** The use lists and the heap agree, no use list names a handle twice,
    and every event is about a registration that has been released. *)
Definition consistent (s : State) : Prop :=
  (∀ V h, h ∈ handles_of V s ↔ ∃ o, heap s !! h = Some o ∧ ValPtr o = V) ∧
  (∀ V, NoDup (handles_of V s)) ∧
  (∀ e, e ∈ trace s → is_Some (released s !! subject e)).

End TrackerExec.

(** * Properties *)

(** ** Pipeline selection and tuning *)

Section Selection.

Import Orchestrator.
Local Open Scope Z_scope.

Lemma default_pipelines_selected c n t l :
  default_pipelines (MPM_assembled c n t l) =
  default_pipelines (MPM_selected c false t l).
Proof.
  unfold MPM_assembled, MPM_selected.
  destruct (c =? 0), n, t, l; reflexivity.
Qed.

(** C3. The module-level default pipeline is chosen by the first matching
    case, in this order: level 0 gives the O0 pipeline; otherwise a
    thin-LTO request gives the thin-LTO pre-link pipeline, whatever the
    full-LTO flag; otherwise a full-LTO request gives the LTO pre-link
    pipeline; otherwise the per-module pipeline.  Exactly one default
    pipeline is in the assembled manager. *)
Theorem pipeline_selection_first_match
  (CodeOptLevel : Z) (NeedLoopInfo PrepareForThinLTO PrepareForLTO : bool) :
  let chosen :=
    default_pipelines
      (MPM_assembled CodeOptLevel NeedLoopInfo PrepareForThinLTO PrepareForLTO) in
  (CodeOptLevel = 0 →
     chosen = [O0DefaultPipeline O0 (PrepareForLTO || PrepareForThinLTO)]) ∧
  (CodeOptLevel ≠ 0 → PrepareForThinLTO = true →
     chosen = [ThinLTOPreLinkDefaultPipeline (Level CodeOptLevel)]) ∧
  (CodeOptLevel ≠ 0 → PrepareForThinLTO = false → PrepareForLTO = true →
     chosen = [LTOPreLinkDefaultPipeline (Level CodeOptLevel)]) ∧
  (CodeOptLevel ≠ 0 → PrepareForThinLTO = false → PrepareForLTO = false →
     chosen = [PerModuleDefaultPipeline (Level CodeOptLevel)]).
Proof.
  cbv zeta. rewrite default_pipelines_selected. unfold MPM_selected.
  repeat split.
  - intros ->. reflexivity.
  - intros Hc ->. apply Z.eqb_neq in Hc. rewrite Hc. reflexivity.
  - intros Hc -> ->. apply Z.eqb_neq in Hc. rewrite Hc. reflexivity.
  - intros Hc -> ->. apply Z.eqb_neq in Hc. rewrite Hc. reflexivity.
Qed.

Lemma pipeline_selection_first_match_witness :
  default_pipelines (MPM_assembled 0 false false false)
    = [O0DefaultPipeline O0 false] ∧
  default_pipelines (MPM_assembled 2 false true true)
    = [ThinLTOPreLinkDefaultPipeline O2] ∧
  default_pipelines (MPM_assembled 2 false true false)
    = [ThinLTOPreLinkDefaultPipeline O2] ∧
  default_pipelines (MPM_assembled 3 true false true)
    = [LTOPreLinkDefaultPipeline O3] ∧
  default_pipelines (MPM_assembled 1 true false false)
    = [PerModuleDefaultPipeline O1].
Proof.
  split; [| split; [| split; [| split]]].
  - apply (pipeline_selection_first_match 0 false false false). reflexivity.
  - apply (pipeline_selection_first_match 2 false true true); [lia | reflexivity].
  - apply (pipeline_selection_first_match 2 false true false); [lia | reflexivity].
  - apply (pipeline_selection_first_match 3 true false true);
      [lia | reflexivity | reflexivity].
  - apply (pipeline_selection_first_match 1 true false false);
      [lia | reflexivity | reflexivity].
Defined.

(** C6. Loop unrolling and loop interleaving are both the negation of the
    no-unroll flag, hence always equal; loop vectorization and SLP
    vectorization are the negations of their own disable flags; function
    merging is its flag. *)
Theorem tuning_options_follow_flags
  (NoUnrollLoops NoLoopVectorization NoSLPVectorization MergeFunctions : bool) :
  let PTO := PTO_of NoUnrollLoops NoLoopVectorization NoSLPVectorization
               MergeFunctions in
  PTO.LoopUnrolling PTO = negb NoUnrollLoops ∧
  PTO.LoopInterleaving PTO = negb NoUnrollLoops ∧
  PTO.LoopUnrolling PTO = PTO.LoopInterleaving PTO ∧
  PTO.LoopVectorization PTO = negb NoLoopVectorization ∧
  PTO.SLPVectorization PTO = negb NoSLPVectorization ∧
  PTO.MergeFunctions PTO = MergeFunctions ∧
  (∀ u v s m,
     PTO.LoopVectorization (PTO_of u v s m) = PTO.LoopVectorization PTO →
     v = NoLoopVectorization) ∧
  (∀ u v s m,
     PTO.SLPVectorization (PTO_of u v s m) = PTO.SLPVectorization PTO →
     s = NoSLPVectorization).
Proof.
  cbv zeta. simpl. repeat split; try reflexivity.
  - intros _ v _ _. destruct v, NoLoopVectorization; simpl; congruence.
  - intros _ _ s _. destruct s, NoSLPVectorization; simpl; congruence.
Qed.

(** C7. With loop information requested, the assembled manager is the
    manager assembled without it, followed by the loop-rotation adaptor
    exactly when the level is 0, followed by the loop-information pass as
    the last pass; the pass itself returns its loop unchanged and preserves
    every analysis. *)
Theorem loop_info_pass_appended
  (CodeOptLevel : Z) (PrepareForThinLTO PrepareForLTO : bool) :
  MPM_assembled CodeOptLevel true PrepareForThinLTO PrepareForLTO =
    MPM_assembled CodeOptLevel false PrepareForThinLTO PrepareForLTO
    ++ (if CodeOptLevel =? 0 then [LoopRotate_adaptor] else [])
    ++ [OurLoopPass_adaptor] ∧
  (LoopRotate_adaptor ∈
     MPM_assembled CodeOptLevel true PrepareForThinLTO PrepareForLTO
   ↔ CodeOptLevel = 0) ∧
  MPM_assembled CodeOptLevel false PrepareForThinLTO PrepareForLTO =
    default_pipelines
      (MPM_assembled CodeOptLevel true PrepareForThinLTO PrepareForLTO) ∧
  (∀ L, OurLoopPass_run L = (L, PreservedAnalyses_all)).
Proof.
  split; [| split; [| split]].
  - unfold MPM_assembled, MPM_selected, addPass.
    destruct (CodeOptLevel =? 0), PrepareForThinLTO, PrepareForLTO;
      reflexivity.
  - unfold MPM_assembled, MPM_selected, addPass, LoopRotate_adaptor.
    destruct (Z.eqb_spec CodeOptLevel 0) as [Hc | Hc];
      destruct PrepareForThinLTO, PrepareForLTO; simpl;
      rewrite ?elem_of_cons, elem_of_nil; split;
      solve [ intros _; exact Hc
            | intros _; right; left; reflexivity
            | intros Hin; exfalso; intuition congruence
            | intros Heq; exfalso; exact (Hc Heq) ].
  - unfold MPM_assembled, MPM_selected, addPass.
    destruct (CodeOptLevel =? 0), PrepareForThinLTO, PrepareForLTO;
      reflexivity.
  - intros L. reflexivity.
Qed.

(** C10. At level 0 the O0 pipeline is built with
    [PrepareForLTO || PrepareForThinLTO] as its second argument, so each of
    the two flags changes the pipeline that is built. *)
Theorem O0_pipeline_takes_lto_disjunction
  (NeedLoopInfo PrepareForThinLTO PrepareForLTO : bool) :
  default_pipelines (MPM_assembled 0 NeedLoopInfo PrepareForThinLTO PrepareForLTO)
    = [O0DefaultPipeline O0 (PrepareForLTO || PrepareForThinLTO)] ∧
  MPM_assembled 0 NeedLoopInfo true false ≠ MPM_assembled 0 NeedLoopInfo false false ∧
  MPM_assembled 0 NeedLoopInfo false true ≠ MPM_assembled 0 NeedLoopInfo false false.
Proof.
  repeat split.
  - destruct NeedLoopInfo; reflexivity.
  - destruct NeedLoopInfo; discriminate.
  - destruct NeedLoopInfo; discriminate.
Qed.

End Selection.

(** ** The driver *)

Section DriverProperties.

Import Orchestrator.
Local Open Scope Z_scope.

Context {PassPlugin : Type} (PassPlugin_Load : string → Expected PassPlugin).

Ltac unfold_driver :=
  unfold LLVM_Optimize_Module, LLVM_Optimize_Module_body, emit, store, skip,
    return_;
  cbv [mbind mret Exec_bind Exec_ret]; cbn [trace strings].

Lemma driver_plugin_failure M TM TargetTriple CodeOptLevel SizeOptLevel
  NeedLoopInfo NoUnrollLoops NoLoopVectorization NoSLPVectorization
  MergeFunctions PrepareForThinLTO PrepareForLTO RerollLoops Name Message
  ErrorMessage w :
  PassPlugin_Load Name = StringError Message →
  LLVM_Optimize_Module PassPlugin PassPlugin_Load M TM TargetTriple
    CodeOptLevel SizeOptLevel NeedLoopInfo NoUnrollLoops NoLoopVectorization
    NoSLPVectorization MergeFunctions PrepareForThinLTO PrepareForLTO
    RerollLoops (Some Name) ErrorMessage w =
  (1, {| trace := trace _ w ++
           [NewPassBuilder _ TM
              (PTO_of NoUnrollLoops NoLoopVectorization NoSLPVectorization
                 MergeFunctions);
            PassPlugin_Load_call _ Name];
         strings := match ErrorMessage with
                    | Some p => <[p := Message]> (strings _ w)
                    | None => strings _ w
                    end |}).
Proof.
  intros HLoad. unfold_driver. rewrite HLoad.
  destruct ErrorMessage; cbn [trace strings]; rewrite <- app_assoc;
    reflexivity.
Qed.

Lemma driver_success M TM TargetTriple CodeOptLevel SizeOptLevel
  NeedLoopInfo NoUnrollLoops NoLoopVectorization NoSLPVectorization
  MergeFunctions PrepareForThinLTO PrepareForLTO RerollLoops PassPluginName
  ErrorMessage w :
  plugin_loads _ PassPlugin_Load PassPluginName = true →
  LLVM_Optimize_Module PassPlugin PassPlugin_Load M TM TargetTriple
    CodeOptLevel SizeOptLevel NeedLoopInfo NoUnrollLoops NoLoopVectorization
    NoSLPVectorization MergeFunctions PrepareForThinLTO PrepareForLTO
    RerollLoops PassPluginName ErrorMessage w =
  (0, {| trace := trace _ w ++
           (NewPassBuilder _ TM
              (PTO_of NoUnrollLoops NoLoopVectorization NoSLPVectorization
                 MergeFunctions)
            :: plugin_events _ PassPlugin_Load PassPluginName
            ++ registrations _ TargetTriple)
           ++ [run _ (MPM_assembled CodeOptLevel NeedLoopInfo
                        PrepareForThinLTO PrepareForLTO) M];
         strings := strings _ w |}).
Proof.
  unfold plugin_loads, plugin_events. intros Hok. unfold_driver.
  destruct PassPluginName as [Name |].
  - destruct (PassPlugin_Load Name) as [Plugin | Message]; [| discriminate].
    cbn [trace strings]. f_equal. f_equal.
    rewrite <- !app_assoc. reflexivity.
  - cbn [trace strings]. f_equal. f_equal.
    rewrite <- !app_assoc. reflexivity.
Qed.

Lemma no_run_before_the_run TM PTO PassPluginName TargetTriple :
  List.filter (is_run PassPlugin)
    (NewPassBuilder _ TM PTO
     :: plugin_events _ PassPlugin_Load PassPluginName
     ++ registrations _ TargetTriple) = [].
Proof.
  unfold plugin_events.
  destruct PassPluginName as [Name |]; [| reflexivity].
  destruct (PassPlugin_Load Name); reflexivity.
Qed.

(** C4. A failing plugin load makes the run return 1 with nothing but the
    pass-builder construction and the load attempt behind it: no analysis
    is registered and no pass manager is run; the loader's message is
    stored through [ErrorMessage] when that pointer is not null, and
    nothing is stored when it is null.  Without a plugin, or with one that
    loads, the run returns 0 and the assembled manager is run exactly once,
    as the last action. *)
Theorem plugin_failure_aborts_else_runs_once M TM TargetTriple CodeOptLevel
  SizeOptLevel NeedLoopInfo NoUnrollLoops NoLoopVectorization
  NoSLPVectorization MergeFunctions PrepareForThinLTO PrepareForLTO
  RerollLoops PassPluginName ErrorMessage w :
  let r :=
    LLVM_Optimize_Module PassPlugin PassPlugin_Load M TM TargetTriple
      CodeOptLevel SizeOptLevel NeedLoopInfo NoUnrollLoops NoLoopVectorization
      NoSLPVectorization MergeFunctions PrepareForThinLTO PrepareForLTO
      RerollLoops PassPluginName ErrorMessage w in
  (∀ Name Message,
     PassPluginName = Some Name →
     PassPlugin_Load Name = StringError Message →
     r.1 = 1 ∧
     (∃ PTO, trace _ r.2 =
        trace _ w ++ [NewPassBuilder _ TM PTO; PassPlugin_Load_call _ Name]) ∧
     List.filter (is_registration _) (trace _ r.2) =
       List.filter (is_registration _) (trace _ w) ∧
     List.filter (is_run _) (trace _ r.2) = List.filter (is_run _) (trace _ w) ∧
     strings _ r.2 = match ErrorMessage with
                     | Some p => <[p := Message]> (strings _ w)
                     | None => strings _ w
                     end) ∧
  (plugin_loads _ PassPlugin_Load PassPluginName = true →
     r.1 = 0 ∧
     (∃ before,
        trace _ r.2 =
          trace _ w ++ before
          ++ [run _ (MPM_assembled CodeOptLevel NeedLoopInfo PrepareForThinLTO
                       PrepareForLTO) M] ∧
        List.filter (is_run _) before = []) ∧
     strings _ r.2 = strings _ w).
Proof.
  cbv zeta. split.
  - intros Name Message -> HLoad.
    rewrite (driver_plugin_failure _ _ _ _ _ _ _ _ _ _ _ _ _ _ _ _ _ HLoad).
    cbn [fst snd trace strings].
    split; [reflexivity |]. split; [eexists; reflexivity |].
    rewrite !List.filter_app. cbn [List.filter is_registration is_run].
    rewrite !app_nil_r. auto.
  - intros Hok. rewrite (driver_success _ _ _ _ _ _ _ _ _ _ _ _ _ _ _ _ Hok).
    cbn [fst snd trace strings].
    split; [reflexivity |]. split; [| reflexivity].
    eexists. split; [reflexivity | apply no_run_before_the_run].
Qed.

(** C5. The level member is 1 -> O1, 2 -> O2, 3 -> O3 and O0 for every other
    input, and the whole run (status, calls made with their arguments,
    stored message) is the same for any two values of [SizeOptLevel]. *)
Theorem level_from_CodeOptLevel_only :
  Level 1 = O1 ∧ Level 2 = O2 ∧ Level 3 = O3 ∧
  (∀ CodeOptLevel,
     CodeOptLevel ≠ 1 → CodeOptLevel ≠ 2 → CodeOptLevel ≠ 3 →
     Level CodeOptLevel = O0) ∧
  (∀ M TM TargetTriple CodeOptLevel SizeOptLevel SizeOptLevel'
     NeedLoopInfo NoUnrollLoops NoLoopVectorization NoSLPVectorization
     MergeFunctions PrepareForThinLTO PrepareForLTO RerollLoops
     PassPluginName ErrorMessage w,
     LLVM_Optimize_Module PassPlugin PassPlugin_Load M TM TargetTriple
       CodeOptLevel SizeOptLevel NeedLoopInfo NoUnrollLoops
       NoLoopVectorization NoSLPVectorization MergeFunctions
       PrepareForThinLTO PrepareForLTO RerollLoops PassPluginName
       ErrorMessage w =
     LLVM_Optimize_Module PassPlugin PassPlugin_Load M TM TargetTriple
       CodeOptLevel SizeOptLevel' NeedLoopInfo NoUnrollLoops
       NoLoopVectorization NoSLPVectorization MergeFunctions
       PrepareForThinLTO PrepareForLTO RerollLoops PassPluginName
       ErrorMessage w).
Proof.
  split; [reflexivity |]. split; [reflexivity |]. split; [reflexivity |].
  split.
  - intros c H1 H2 H3. unfold Level.
    apply Z.eqb_neq in H1, H2, H3. rewrite H1, H2, H3. reflexivity.
  - intros. reflexivity.
Qed.

End DriverProperties.

Lemma plugin_failure_aborts_else_runs_once_witness :
  (Orchestrator.LLVM_Optimize_Module unit Orchestrator.example_Load 1 2 "x86_64-linux" 2 0
     true false false false false false false false (Some "missing.so")
     (Some 5%N) Orchestrator.example_world).1 = 1%Z ∧
  (Orchestrator.LLVM_Optimize_Module unit Orchestrator.example_Load 1 2 "x86_64-linux" 2 0
     true false false false false false false false (Some "libpass.so")
     (Some 5%N) Orchestrator.example_world).1 = 0%Z.
Proof.
  split.
  - destruct (plugin_failure_aborts_else_runs_once Orchestrator.example_Load 1 2
                "x86_64-linux" 2 0 true false false false false false false
                false (Some "missing.so") (Some 5%N) Orchestrator.example_world)
      as [Hfail _].
    apply (Hfail "missing.so" "Could not load library"); reflexivity.
  - destruct (plugin_failure_aborts_else_runs_once Orchestrator.example_Load 1 2
                "x86_64-linux" 2 0 true false false false false false false
                false (Some "libpass.so") (Some 5%N) Orchestrator.example_world)
      as [_ Hok].
    apply Hok. reflexivity.
Defined.

(** C4 as stated fails when the caller passes a null [ErrorMessage]: the
    load fails, 1 is returned, and no message string is stored anywhere. *)
Lemma plugin_failure_null_ErrorMessage_no_message :
  let r :=
    Orchestrator.LLVM_Optimize_Module unit Orchestrator.example_Load 1 2 "x86_64-linux" 2 0
      true false false false false false false false (Some "missing.so")
      None Orchestrator.example_world in
  Orchestrator.example_Load "missing.so" = Orchestrator.StringError "Could not load library" ∧
  r.1 = 1%Z ∧
  ¬ ∃ p Message, Orchestrator.strings _ r.2 !! p = Some Message.
Proof.
  cbv zeta. split; [reflexivity |]. split; [reflexivity |].
  intros (p & Message & H). vm_compute in H. discriminate.
Qed.

Lemma level_from_CodeOptLevel_only_witness :
  Orchestrator.Level 0 = Orchestrator.O0 ∧
  Orchestrator.Level 4 = Orchestrator.O0 ∧
  Orchestrator.Level (-1) = Orchestrator.O0.
Proof.
  split; [| split];
    apply (level_from_CodeOptLevel_only Orchestrator.example_Load); lia.
Defined.

(** ** Access tags *)

Section AccessTags.

Import TBAA.

(** C9. Every access tag the wrapper creates is the builder's tag for the
    given base, access type, offset and size with [false] as the final
    argument; no input yields a tag built with [true]. *)
Theorem access_tag_flag_always_cleared
  (BaseType AccessType : MDNode) (offset size : N) :
  Create_TBAA_Access_Tag BaseType AccessType offset size =
    createTBAAAccessTag BaseType AccessType offset size false ∧
  tag_flag (Create_TBAA_Access_Tag BaseType AccessType offset size) =
    Some false ∧
  ¬ ∃ B A o s, tag_flag (Create_TBAA_Access_Tag B A o s) = Some true.
Proof.
  split; [reflexivity |]. split; [reflexivity |].
  intros (B & A & o & s & H). discriminate H.
Qed.

End AccessTags.

(** ** Rendering floating-point constants *)

Section HexDigits.

Import FP.
Local Open Scope N_scope.

Lemma hexdigit_value_hexdigit d : d < 16 → hexdigit_value (hexdigit d) = d.
Proof.
  intros Hd.
  assert (∀ n : nat, (n < 16)%nat →
            hexdigit_value (hexdigit (N.of_nat n)) = N.of_nat n) as Hnat.
  { intros n Hn. do 16 (destruct n as [| n]; [reflexivity |]). lia. }
  rewrite <- (N2Nat.id d). apply Hnat. lia.
Qed.

Lemma utohexstr_loop_value n X acc :
  X < 16 ^ N.of_nat n →
  hex_value (utohexstr_loop n X acc) =
    X * 16 ^ N.of_nat (String.length acc) + hex_value acc.
Proof.
  revert X acc. induction n as [| n IH]; intros X acc HX.
  - cbn [utohexstr_loop]. change (16 ^ N.of_nat 0) with 1 in HX.
    assert (X = 0) as -> by lia. reflexivity.
  - cbn [utohexstr_loop]. destruct (N.eqb_spec X 0) as [-> | Hnz].
    + reflexivity.
    + rewrite IH.
      * cbn [hex_value String.length].
        rewrite hexdigit_value_hexdigit.
        2:{ change 15 with (N.ones 4). rewrite N.land_ones.
            apply N.mod_lt. discriminate. }
        rewrite Nat2N.inj_succ, N.pow_succ_r'.
        change 15 with (N.ones 4). rewrite N.land_ones, N.shiftr_div_pow2.
        change (2 ^ 4) with 16.
        rewrite (N.div_mod X 16) at 3 by discriminate. lia.
      * rewrite N.shiftr_div_pow2. change (2 ^ 4) with 16.
        rewrite Nat2N.inj_succ, N.pow_succ_r' in HX.
        apply N.Div0.div_lt_upper_bound. exact HX.
Qed.

(** The digits [utohexstr] writes for a 64-bit pattern read back as that
    pattern. *)
Lemma utohexstr_value X : X < 2 ^ 64 → hex_value (utohexstr X) = X.
Proof.
  intros HX. unfold utohexstr. rewrite utohexstr_loop_value.
  - destruct (N.eqb_spec X 0) as [-> | _]; [reflexivity |].
    cbn [String.length hex_value N.of_nat]. lia.
  - exact HX.
Qed.

End HexDigits.


(** ** The value lifetime tracker *)

Section TrackerProperties.

Import Tracker.
Local Open Scope N_scope.

Lemma handles_of_init V : handles_of V init = [].
Proof. unfold handles_of, init. cbn [ValueHandles]. rewrite lookup_empty. reflexivity. Qed.

Lemma Notify_heap V Fn s :
  heap (Notify_On_Value_Delete V Fn s) !! fresh (dom (heap s)) =
    Some {| ValPtr := V; val := V; fn := Fn |}.
Proof. unfold Notify_On_Value_Delete. cbn [heap]. apply lookup_insert_eq. Qed.

Lemma Notify_handles V Fn s :
  handles_of V (Notify_On_Value_Delete V Fn s) =
    fresh (dom (heap s)) :: handles_of V s.
Proof.
  unfold handles_of at 1, Notify_On_Value_Delete. cbn [ValueHandles].
  rewrite lookup_insert_eq. reflexivity.
Qed.

(** On a live object, [deleted] releases the storage and then stops at the
    read of [this->fn]: the release is the only event it adds. *)
Lemma deleted_live this s o :
  heap s !! this = Some o →
  deleted this s =
    UseAfterFree this
      {| heap := delete this (heap s);
         ValueHandles :=
           <[ValPtr o := filter (λ h, h ≠ this) (handles_of (ValPtr o) s)]>
             (ValueHandles s);
         trace := trace s ++ [release this] |}.
Proof.
  intros Hlive. unfold deleted, delete_this. rewrite Hlive.
  cbn [then_]. unfold call_fn_val. cbn [heap].
  rewrite lookup_delete_eq. reflexivity.
Qed.

(** With the two statements in the specification's order the callback is
    called with the stored value and the release follows. *)
Lemma deleted_in_spec_order_live this s o :
  heap s !! this = Some o →
  deleted_in_spec_order this s =
    Done
      {| heap := delete this (heap s);
         ValueHandles :=
           <[ValPtr o := filter (λ h, h ≠ this) (handles_of (ValPtr o) s)]>
             (ValueHandles s);
         trace := trace s ++ [call (fn o) (val o); release this] |}.
Proof.
  intros Hlive. unfold deleted_in_spec_order, call_fn_val. rewrite Hlive.
  cbn [then_]. unfold delete_this. cbn [heap ValueHandles trace].
  rewrite Hlive. unfold handles_of. cbn [ValueHandles].
  rewrite <- app_assoc. reflexivity.
Qed.

(** C1 on the code: for every registration, [deleted] releases the
    registration's storage first; the callback's function pointer and
    argument are then read from the released object, which ends the defined
    execution before any call. *)
Theorem deleted_releases_before_callback (V Fn : N) (s : State) :
  let CB := fresh (dom (heap s)) in
  ∃ s',
    deleted CB (Notify_On_Value_Delete V Fn s) = UseAfterFree CB s' ∧
    trace s' = trace s ++ [release CB] ∧
    heap s' !! CB = None.
Proof.
  cbv zeta. eexists. split; [| split].
  - apply deleted_live, Notify_heap.
  - reflexivity.
  - cbn [heap]. apply lookup_delete_eq.
Qed.

(** [track (V, Fn)] from the initial state, then the destruction of [V],
    with the two statements in the specification's order: exactly one
    call of [Fn] on [V], then the release, and the registration is gone
    from the heap and from [V]'s use list, so that a further notification
    for [V] finds no handle and adds nothing. *)
Lemma spec_order_fires_exactly_once (V Fn : N) :
  let o := ValueIsDeleted deleted_in_spec_order V
             (Notify_On_Value_Delete V Fn init) in
  o = Done (final o) ∧
  trace (final o) = [call Fn V; release (fresh (dom (heap init)))] ∧
  calls Fn V (final o) = 1%nat ∧
  handles_of V (final o) = [] ∧
  ValueIsDeleted deleted_in_spec_order V (final o) = Done (final o).
Proof.
  cbv zeta.
  pose (CB := fresh (dom (heap init))).
  pose (s' := {| heap := delete CB (heap (Notify_On_Value_Delete V Fn init));
                 ValueHandles :=
                   <[V := filter (λ h, h ≠ CB)
                            (handles_of V (Notify_On_Value_Delete V Fn init))]>
                     (ValueHandles (Notify_On_Value_Delete V Fn init));
                 trace := [call Fn V; release CB] |}).
  assert (ValueIsDeleted deleted_in_spec_order V
            (Notify_On_Value_Delete V Fn init) = Done s') as ->.
  { unfold ValueIsDeleted. rewrite Notify_handles, handles_of_init.
    cbn [notify].
    rewrite (deleted_in_spec_order_live _ _ _ (Notify_heap V Fn init)).
    reflexivity. }
  cbn [final].
  assert (handles_of V s' = []) as Hnone.
  { unfold handles_of at 1, s'. cbn [ValueHandles].
    rewrite lookup_insert_eq. cbn [default].
    rewrite Notify_handles, handles_of_init.
    rewrite filter_cons_False by (intros H; apply H; reflexivity).
    reflexivity. }
  split; [reflexivity |]. split; [reflexivity |].
  split.
  { unfold calls, s'. cbn [trace]. rewrite filter_cons_True by reflexivity.
    rewrite filter_cons_False by discriminate. reflexivity. }
  split; [exact Hnone |].
  unfold ValueIsDeleted. rewrite Hnone. reflexivity.
Qed.

End TrackerProperties.

(** ** Struct nodes and the metadata readers *)

Section StructNodes.

Import TBAA TBAANodes.

Lemma set_op_next (pre rest : Operands) (k : nat) (x : Metadata) :
  length pre = k →
  set_op k x (pre ++ None :: rest) = Some ((pre ++ [Some x]) ++ rest).
Proof.
  intros <-. unfold set_op. rewrite decide_True.
  - rewrite insert_app_r_alt, Nat.sub_diag by lia.
    rewrite <- app_assoc. reflexivity.
  - rewrite length_app. cbn [length]. lia.
Qed.

Lemma MDNode_get_Ops_assigned (l : list Metadata) :
  MDNode_get_Ops (Some <$> l) = Some (MDNode_get l).
Proof.
  unfold MDNode_get_Ops.
  assert (mapM id (Some <$> l) = Some l) as ->; [| reflexivity].
  apply mapM_Some_2. induction l as [| x l IH]; constructor; auto.
Qed.

Lemma lookup_of_drop {A} (l : list A) (i r : nat) :
  (S r ≤ length (drop i l))%nat →
  ∃ x, l !! i = Some x ∧ drop i l = x :: drop (S i) l ∧
       (r ≤ length (drop (S i) l))%nat.
Proof.
  intros Hlen. rewrite length_drop in Hlen.
  destruct (lookup_lt_is_Some_2 l i) as [x Hx]; [lia |].
  exists x. split; [exact Hx |]. split; [apply drop_S, Hx |].
  rewrite length_drop. lia.
Qed.

Lemma replicate_S3 {A} (r : nat) (x : A) :
  replicate (S r * 3) x = x :: x :: x :: replicate (r * 3) x.
Proof. reflexivity. Qed.

Lemma Struct_Type_Node_loop_filled remaining :
  ∀ i pre fields offsets sizes,
    length pre = (3 + i * 3)%nat →
    (remaining ≤ length (drop i fields))%nat →
    (remaining ≤ length (drop i offsets))%nat →
    (remaining ≤ length (drop i sizes))%nat →
    Struct_Type_Node_loop remaining i fields offsets sizes
      (pre ++ replicate (remaining * 3) None) =
    Some (pre ++ (Some <$> type_node_fields
                             (take remaining (drop i fields))
                             (take remaining (drop i offsets))
                             (take remaining (drop i sizes)))).
Proof.
  unfold MDNode.
  induction remaining as [| r IH]; intros i pre Fs Os Ss Hpre HF HO HS.
  - cbn. rewrite !app_nil_r. reflexivity.
  - destruct (lookup_of_drop Fs i r HF) as (f & Hf & HdF & HF').
    destruct (lookup_of_drop Os i r HO) as (o & Ho & HdO & HO').
    destruct (lookup_of_drop Ss i r HS) as (s & Hs & HdS & HS').
    rewrite replicate_S3. cbn [Struct_Type_Node_loop]. unfold MDNode.
    rewrite Hf, Ho, Hs. cbn [mbind option_bind].
    rewrite (set_op_next pre _ _ f Hpre). cbn [mbind option_bind].
    rewrite (set_op_next (pre ++ [Some f]));
      [| rewrite length_app; cbn [length]; lia].
    cbn [mbind option_bind].
    rewrite (set_op_next ((pre ++ [Some f]) ++ [Some (createConstant_Int64 o)]));
      [| rewrite !length_app; cbn [length]; lia].
    cbn [mbind option_bind].
    rewrite IH; [| rewrite !length_app; cbn [length]; lia | assumption ..].
    rewrite HdF, HdO, HdS. cbn [take type_node_fields fmap list_fmap].
    rewrite <- !app_assoc. reflexivity.
Qed.

Lemma Struct_Node_loop_filled remaining :
  ∀ i pre types offsets sizes,
    length pre = (i * 3)%nat →
    (remaining ≤ length (drop i types))%nat →
    (remaining ≤ length (drop i offsets))%nat →
    (remaining ≤ length (drop i sizes))%nat →
    Struct_Node_loop remaining i types offsets sizes
      (pre ++ replicate (remaining * 3) None) =
    Some (pre ++ (Some <$> struct_node_fields
                             (take remaining (drop i types))
                             (take remaining (drop i offsets))
                             (take remaining (drop i sizes)))).
Proof.
  unfold MDNode.
  induction remaining as [| r IH]; intros i pre Ts Os Ss Hpre HT HO HS.
  - cbn. rewrite !app_nil_r. reflexivity.
  - destruct (lookup_of_drop Ts i r HT) as (t & Ht & HdT & HT').
    destruct (lookup_of_drop Os i r HO) as (o & Ho & HdO & HO').
    destruct (lookup_of_drop Ss i r HS) as (s & Hs & HdS & HS').
    rewrite replicate_S3. cbn [Struct_Node_loop]. unfold MDNode.
    rewrite Ht, Ho, Hs. cbn [mbind option_bind].
    rewrite (set_op_next pre _ _ _ Hpre). cbn [mbind option_bind].
    rewrite (set_op_next (pre ++ [Some (createConstant_Int64 o)]));
      [| rewrite length_app; cbn [length]; lia].
    cbn [mbind option_bind].
    rewrite (set_op_next ((pre ++ [Some (createConstant_Int64 o)])
                          ++ [Some (createConstant_Int64 s)]));
      [| rewrite !length_app; cbn [length]; lia].
    cbn [mbind option_bind].
    rewrite IH; [| rewrite !length_app; cbn [length]; lia | assumption ..].
    rewrite HdT, HdO, HdS. cbn [take struct_node_fields fmap list_fmap].
    rewrite <- !app_assoc. reflexivity.
Qed.

Lemma Struct_Type_Node_closed_form name size num_fields parent fields
  offsets sizes :
  (0 ≤ num_fields)%Z → (num_fields * 3 + 3 ≤ INT_MAX)%Z →
  (Z.to_nat num_fields ≤ length fields)%nat →
  (Z.to_nat num_fields ≤ length offsets)%nat →
  (Z.to_nat num_fields ≤ length sizes)%nat →
  Create_TBAA_Struct_Type_Node name size num_fields parent fields offsets
    sizes =
  Some (MDNode_get
          (parent :: createConstant_Int64 size :: createString name
           :: type_node_fields (take (Z.to_nat num_fields) fields)
                (take (Z.to_nat num_fields) offsets)
                (take (Z.to_nat num_fields) sizes))).
Proof.
  intros Hn Hmax HF HO HS. unfold Create_TBAA_Struct_Type_Node.
  unfold MDNode in *. rewrite decide_True by lia.
  replace (Z.to_nat (num_fields * 3 + 3))
    with (S (S (S (Z.to_nat num_fields * 3)))) by lia.
  cbn [replicate].
  set (rest := replicate (Z.to_nat num_fields * 3) None).
  pose proof (set_op_next [] (None :: None :: rest) 0 parent eq_refl) as H0.
  pose proof (set_op_next [Some parent] (None :: rest) 1
                (createConstant_Int64 size) eq_refl) as H1.
  pose proof (set_op_next [Some parent; Some (createConstant_Int64 size)]
                rest 2 (createString name) eq_refl) as H2.
  cbn [app] in H0, H1, H2.
  rewrite H0. cbn [mbind option_bind].
  rewrite H1. cbn [mbind option_bind].
  rewrite H2. cbn [mbind option_bind]. subst rest.
  pose proof (Struct_Type_Node_loop_filled (Z.to_nat num_fields) 0
                [Some parent; Some (createConstant_Int64 size);
                 Some (createString name)] fields offsets sizes) as Hloop.
  rewrite !drop_0 in Hloop. cbn [app] in Hloop. unfold MDNode in *.
  rewrite Hloop by first [reflexivity | assumption].
  cbn [mbind option_bind].
  exact (MDNode_get_Ops_assigned (_ :: _ :: _ :: _)).
Qed.

Lemma Struct_Node_closed_form num_fields types offsets sizes :
  (0 ≤ num_fields)%Z → (num_fields * 3 ≤ INT_MAX)%Z →
  (Z.to_nat num_fields ≤ length types)%nat →
  (Z.to_nat num_fields ≤ length offsets)%nat →
  (Z.to_nat num_fields ≤ length sizes)%nat →
  Create_TBAA_Struct_Node num_fields types offsets sizes =
  Some (MDNode_get
          (struct_node_fields (take (Z.to_nat num_fields) types)
             (take (Z.to_nat num_fields) offsets)
             (take (Z.to_nat num_fields) sizes))).
Proof.
  intros Hn Hmax HT HO HS. unfold Create_TBAA_Struct_Node.
  rewrite decide_True by lia.
  replace (Z.to_nat (num_fields * 3)) with (Z.to_nat num_fields * 3)%nat
    by lia.
  pose proof (Struct_Node_loop_filled (Z.to_nat num_fields) 0 [] types
                offsets sizes) as Hloop.
  rewrite !drop_0 in Hloop. cbn [app] in Hloop. unfold MDNode in *.
  rewrite Hloop by first [reflexivity | assumption].
  cbn [mbind option_bind].
  apply MDNode_get_Ops_assigned.
Qed.

Lemma type_node_fields_length :
  ∀ n fields offsets sizes,
    length fields = n → length offsets = n → length sizes = n →
    length (type_node_fields fields offsets sizes) = (n * 3)%nat.
Proof.
  induction n as [| n IH]; intros [| f Fs] [| o Os] [| s Ss] HF HO HS;
    try discriminate; [reflexivity |].
  cbn [type_node_fields length]. rewrite (IH Fs Os Ss); cbn in *; lia.
Qed.

Lemma struct_node_fields_length :
  ∀ n types offsets sizes,
    length types = n → length offsets = n → length sizes = n →
    length (struct_node_fields types offsets sizes) = (n * 3)%nat.
Proof.
  induction n as [| n IH]; intros [| t Ts] [| o Os] [| s Ss] HT HO HS;
    try discriminate; [reflexivity |].
  cbn [struct_node_fields length]. rewrite (IH Ts Os Ss); cbn in *; lia.
Qed.

Lemma type_node_fields_lookup :
  ∀ i fields offsets sizes field offset size,
    fields !! i = Some field → offsets !! i = Some offset →
    sizes !! i = Some size →
    type_node_fields fields offsets sizes !! (i * 3)%nat = Some field ∧
    type_node_fields fields offsets sizes !! (i * 3 + 1)%nat =
      Some (createConstant_Int64 offset) ∧
    type_node_fields fields offsets sizes !! (i * 3 + 2)%nat =
      Some (createConstant_Int64 size).
Proof.
  induction i as [| i IH]; intros [| f Fs] [| o Os] [| s Ss] x y z HF HO HS;
    try discriminate.
  - cbn in HF, HO, HS. injection HF as ->. injection HO as ->.
    injection HS as ->. repeat split.
  - cbn in HF, HO, HS. exact (IH Fs Os Ss x y z HF HO HS).
Qed.

Lemma struct_node_fields_lookup :
  ∀ i types offsets sizes type offset size,
    types !! i = Some type → offsets !! i = Some offset →
    sizes !! i = Some size →
    struct_node_fields types offsets sizes !! (i * 3)%nat =
      Some (createConstant_Int64 offset) ∧
    struct_node_fields types offsets sizes !! (i * 3 + 1)%nat =
      Some (createConstant_Int64 size) ∧
    struct_node_fields types offsets sizes !! (i * 3 + 2)%nat = Some type.
Proof.
  induction i as [| i IH]; intros [| t Ts] [| o Os] [| s Ss] x y z HT HO HS;
    try discriminate.
  - cbn in HT, HO, HS. injection HT as ->. injection HO as ->.
    injection HS as ->. repeat split.
  - cbn in HT, HO, HS. exact (IH Ts Os Ss x y z HT HO HS).
Qed.

Lemma drop_length_of_lookup {A} (l : list A) (i r : nat) x :
  l !! i = Some x → (r ≤ length (drop (S i) l))%nat →
  (S r ≤ length (drop i l))%nat.
Proof.
  intros Hx Hr. apply lookup_lt_Some in Hx.
  rewrite length_drop in *. lia.
Qed.

Lemma Struct_Type_Node_loop_reads remaining :
  ∀ i fields offsets sizes Ops Ops',
    Struct_Type_Node_loop remaining i fields offsets sizes Ops = Some Ops' →
    (remaining ≤ length (drop i fields))%nat ∧
    (remaining ≤ length (drop i offsets))%nat ∧
    (remaining ≤ length (drop i sizes))%nat.
Proof.
  induction remaining as [| r IH]; intros i Fs Os Ss Ops Ops' Hloop.
  - repeat split; lia.
  - cbn [Struct_Type_Node_loop] in Hloop. unfold MDNode in *.
    destruct (Fs !! i) as [f |] eqn:Hf; [| discriminate].
    cbn [mbind option_bind] in Hloop.
    destruct (set_op _ f Ops) as [Ops1 |]; [| discriminate].
    cbn [mbind option_bind] in Hloop.
    destruct (Os !! i) as [o |] eqn:Ho; [| discriminate].
    cbn [mbind option_bind] in Hloop.
    destruct (set_op _ _ Ops1) as [Ops2 |]; [| discriminate].
    cbn [mbind option_bind] in Hloop.
    destruct (Ss !! i) as [s |] eqn:Hs; [| discriminate].
    cbn [mbind option_bind] in Hloop.
    destruct (set_op _ _ Ops2) as [Ops3 |]; [| discriminate].
    cbn [mbind option_bind] in Hloop.
    destruct (IH _ _ _ _ _ _ Hloop) as (HF & HO & HS).
    split; [| split]; eapply drop_length_of_lookup; eassumption.
Qed.

Lemma Struct_Node_loop_reads remaining :
  ∀ i types offsets sizes Ops Ops',
    Struct_Node_loop remaining i types offsets sizes Ops = Some Ops' →
    (remaining ≤ length (drop i types))%nat ∧
    (remaining ≤ length (drop i offsets))%nat ∧
    (remaining ≤ length (drop i sizes))%nat.
Proof.
  induction remaining as [| r IH]; intros i Ts Os Ss Ops Ops' Hloop.
  - repeat split; lia.
  - cbn [Struct_Node_loop] in Hloop. unfold MDNode in *.
    destruct (Os !! i) as [o |] eqn:Ho; [| discriminate].
    cbn [mbind option_bind] in Hloop.
    destruct (set_op _ _ Ops) as [Ops1 |]; [| discriminate].
    cbn [mbind option_bind] in Hloop.
    destruct (Ss !! i) as [s |] eqn:Hs; [| discriminate].
    cbn [mbind option_bind] in Hloop.
    destruct (set_op _ _ Ops1) as [Ops2 |]; [| discriminate].
    cbn [mbind option_bind] in Hloop.
    destruct (Ts !! i) as [t |] eqn:Ht; [| discriminate].
    cbn [mbind option_bind] in Hloop.
    destruct (set_op _ _ Ops2) as [Ops3 |]; [| discriminate].
    cbn [mbind option_bind] in Hloop.
    destruct (IH _ _ _ _ _ _ Hloop) as (HT & HO & HS).
    split; [| split]; eapply drop_length_of_lookup; eassumption.
Qed.

Lemma Struct_Type_Node_defined name size num_fields parent fields offsets
  sizes node :
  Create_TBAA_Struct_Type_Node name size num_fields parent fields offsets
    sizes = Some node →
  (0 ≤ num_fields)%Z ∧ (num_fields * 3 + 3 ≤ INT_MAX)%Z ∧
  (Z.to_nat num_fields ≤ length fields)%nat ∧
  (Z.to_nat num_fields ≤ length offsets)%nat ∧
  (Z.to_nat num_fields ≤ length sizes)%nat.
Proof.
  unfold Create_TBAA_Struct_Type_Node. intros Hnode.
  case_decide as Hsize; [| discriminate].
  assert (0 ≤ num_fields)%Z as Hn.
  { destruct (decide (0 ≤ num_fields)%Z) as [| Hneg]; [assumption |].
    exfalso. assert (num_fields = -1)%Z as -> by lia.
    cbn in Hnode. discriminate. }
  split; [exact Hn |]. split; [lia |].
  destruct (set_op 0 _ _) as [Ops0 |]; [| discriminate].
  cbn [mbind option_bind] in Hnode.
  destruct (set_op 1 _ _) as [Ops1 |]; [| discriminate].
  cbn [mbind option_bind] in Hnode.
  destruct (set_op 2 _ _) as [Ops2 |]; [| discriminate].
  cbn [mbind option_bind] in Hnode.
  destruct (Struct_Type_Node_loop _ _ _ _ _ _) as [Ops3 |] eqn:Hloop;
    [| discriminate].
  apply Struct_Type_Node_loop_reads in Hloop. rewrite !drop_0 in Hloop.
  exact Hloop.
Qed.

Lemma Struct_Node_defined num_fields types offsets sizes node :
  Create_TBAA_Struct_Node num_fields types offsets sizes = Some node →
  (0 ≤ num_fields)%Z ∧ (num_fields * 3 ≤ INT_MAX)%Z ∧
  (Z.to_nat num_fields ≤ length types)%nat ∧
  (Z.to_nat num_fields ≤ length offsets)%nat ∧
  (Z.to_nat num_fields ≤ length sizes)%nat.
Proof.
  unfold Create_TBAA_Struct_Node. intros Hnode.
  case_decide as Hsize; [| discriminate].
  split; [lia |]. split; [lia |].
  destruct (Struct_Node_loop _ _ _ _ _ _) as [Ops3 |] eqn:Hloop;
    [| discriminate].
  apply Struct_Node_loop_reads in Hloop. rewrite !drop_0 in Hloop.
  exact Hloop.
Qed.

Variable MDBuilder_operands : Metadata → option (list Metadata).

(** X1. With [num_fields] fields available in the three arrays, the struct
    type node has [num_fields * 3 + 3] operands: parent, size, name, then
    for each field in order its node, its offset and its size. *)
Theorem struct_type_node_operand_layout name size num_fields parent fields
  offsets sizes :
  (0 ≤ num_fields)%Z → (num_fields * 3 + 3 ≤ INT_MAX)%Z →
  (Z.to_nat num_fields ≤ length fields)%nat →
  (Z.to_nat num_fields ≤ length offsets)%nat →
  (Z.to_nat num_fields ≤ length sizes)%nat →
  ∃ node,
    Create_TBAA_Struct_Type_Node name size num_fields parent fields offsets
      sizes = Some node ∧
    operands MDBuilder_operands node =
      Some (parent :: createConstant_Int64 size :: createString name
            :: type_node_fields (take (Z.to_nat num_fields) fields)
                 (take (Z.to_nat num_fields) offsets)
                 (take (Z.to_nat num_fields) sizes)) ∧
    Get_Metadata_Num_Operands MDBuilder_operands node =
      Some (Z.to_N (num_fields * 3 + 3)).
Proof.
  intros Hn Hmax HF HO HS. eexists.
  split; [apply Struct_Type_Node_closed_form; assumption |].
  split; [reflexivity |].
  unfold Get_Metadata_Num_Operands. cbn [operands mbind option_bind length].
  rewrite (type_node_fields_length (Z.to_nat num_fields))
    by (rewrite length_take; lia).
  f_equal. lia.
Qed.


(** X2. Each of the two struct constructors has a result exactly when the
    operand vector can be sized ([num_fields] not negative, the [int]
    product within range) and each of its three arrays holds at least
    [num_fields] elements. *)
Theorem struct_nodes_defined_exactly_within_bounds name size num_fields
  parent fields offsets sizes :
  (is_Some (Create_TBAA_Struct_Type_Node name size num_fields parent fields
              offsets sizes) ↔
   (0 ≤ num_fields)%Z ∧ (num_fields * 3 + 3 ≤ INT_MAX)%Z ∧
   (Z.to_nat num_fields ≤ length fields)%nat ∧
   (Z.to_nat num_fields ≤ length offsets)%nat ∧
   (Z.to_nat num_fields ≤ length sizes)%nat) ∧
  (is_Some (Create_TBAA_Struct_Node num_fields fields offsets sizes) ↔
   (0 ≤ num_fields)%Z ∧ (num_fields * 3 ≤ INT_MAX)%Z ∧
   (Z.to_nat num_fields ≤ length fields)%nat ∧
   (Z.to_nat num_fields ≤ length offsets)%nat ∧
   (Z.to_nat num_fields ≤ length sizes)%nat).
Proof.
  split; split.
  - intros [node Hnode]. exact (Struct_Type_Node_defined _ _ _ _ _ _ _ _ Hnode).
  - intros (Hn & Hmax & HF & HO & HS).
    rewrite Struct_Type_Node_closed_form by assumption. eexists; reflexivity.
  - intros [node Hnode]. exact (Struct_Node_defined _ _ _ _ _ Hnode).
  - intros (Hn & Hmax & HF & HO & HS).
    rewrite Struct_Node_closed_form by assumption. eexists; reflexivity.
Qed.



Lemma lookup_past_header {A} (a b c : A) (l : list A) (k : nat) :
  (a :: b :: c :: l) !! (3 + k)%nat = l !! k.
Proof. reflexivity. Qed.

(** X3. What the readers return on a struct type node: operand 0 is the
    parent, operand 1 reads as the size, and for a field [i] below
    [num_fields] the operands [3 + 3 i], [3 + 3 i + 1] and [3 + 3 i + 2]
    give back [fields[i]], [offsets[i]] and [sizes[i]]. *)
Theorem struct_type_node_read_back name size num_fields parent fields
  offsets sizes node (i : nat) field offset fsize :
  Create_TBAA_Struct_Type_Node name size num_fields parent fields offsets
    sizes = Some node →
  (i < Z.to_nat num_fields)%nat →
  fields !! i = Some field → offsets !! i = Some offset →
  sizes !! i = Some fsize →
  Get_Metadata_Operand MDBuilder_operands node 0 =
    Some (if is_MDNode parent then Some parent else None) ∧
  Get_Metadata_Operand_Constant_Value MDBuilder_operands node 1 = Some size ∧
  Get_Metadata_Operand MDBuilder_operands node (N.of_nat (3 + i * 3)) =
    Some (if is_MDNode field then Some field else None) ∧
  Get_Metadata_Operand_Constant_Value MDBuilder_operands node
    (N.of_nat (3 + i * 3 + 1)) = Some offset ∧
  Get_Metadata_Operand_Constant_Value MDBuilder_operands node
    (N.of_nat (3 + i * 3 + 2)) = Some fsize.
Proof.
  intros Hnode Hi Hf Ho Hs.
  destruct (Struct_Type_Node_defined _ _ _ _ _ _ _ _ Hnode)
    as (Hn & Hmax & HF & HO & HS).
  rewrite Struct_Type_Node_closed_form in Hnode by assumption.
  injection Hnode as <-.
  destruct (type_node_fields_lookup i
              (take (Z.to_nat num_fields) fields)
              (take (Z.to_nat num_fields) offsets)
              (take (Z.to_nat num_fields) sizes) field offset fsize)
    as (L0 & L1 & L2); [rewrite lookup_take_lt by lia; assumption .. |].
  unfold Get_Metadata_Operand, Get_Metadata_Operand_Constant_Value.
  cbn [operands mbind option_bind]. rewrite !Nat2N.id.
  change (N.to_nat 0) with 0%nat. change (N.to_nat 1) with 1%nat.
  replace (3 + i * 3 + 1)%nat with (3 + (i * 3 + 1))%nat by lia.
  replace (3 + i * 3 + 2)%nat with (3 + (i * 3 + 2))%nat by lia.
  unfold MDNode in *. rewrite !lookup_past_header, L0, L1, L2.
  repeat split.
Qed.

(** X4. A struct type node built with no field is the scalar type node of
    the same name, size and parent, whatever the three arrays hold. *)
Theorem struct_type_node_without_fields_is_scalar_node name size parent
  fields offsets sizes :
  Create_TBAA_Struct_Type_Node name size 0 parent fields offsets sizes =
    Some (Create_TBAA_Scalar_Type_Node name size parent).
Proof.
  rewrite Struct_Type_Node_closed_form;
    [reflexivity | first [ unfold INT_MAX; lia | cbn; lia ] ..].
Qed.

(** X5. What the readers return on a struct node made from
    [Create_TBAA_Struct_Node]: it has [3 * num_fields] operands, and for a
    field [i] the operands [3 i] and [3 i + 1] read as [offsets[i]] and
    [sizes[i]] and the operand [3 i + 2] is [types[i]]: the type comes
    last, where the struct type node has it first. *)
Theorem struct_node_read_back num_fields types offsets sizes node (i : nat)
  type offset fsize :
  Create_TBAA_Struct_Node num_fields types offsets sizes = Some node →
  (i < Z.to_nat num_fields)%nat →
  types !! i = Some type → offsets !! i = Some offset →
  sizes !! i = Some fsize →
  Get_Metadata_Num_Operands MDBuilder_operands node =
    Some (Z.to_N (num_fields * 3)) ∧
  Get_Metadata_Operand_Constant_Value MDBuilder_operands node
    (N.of_nat (i * 3)) = Some offset ∧
  Get_Metadata_Operand_Constant_Value MDBuilder_operands node
    (N.of_nat (i * 3 + 1)) = Some fsize ∧
  Get_Metadata_Operand MDBuilder_operands node (N.of_nat (i * 3 + 2)) =
    Some (if is_MDNode type then Some type else None).
Proof.
  intros Hnode Hi Ht Ho Hs.
  destruct (Struct_Node_defined _ _ _ _ _ Hnode)
    as (Hn & Hmax & HT & HO & HS).
  rewrite Struct_Node_closed_form in Hnode by assumption.
  injection Hnode as <-.
  destruct (struct_node_fields_lookup i
              (take (Z.to_nat num_fields) types)
              (take (Z.to_nat num_fields) offsets)
              (take (Z.to_nat num_fields) sizes) type offset fsize)
    as (L0 & L1 & L2); [rewrite lookup_take_lt by lia; assumption .. |].
  unfold Get_Metadata_Num_Operands, Get_Metadata_Operand,
    Get_Metadata_Operand_Constant_Value.
  cbn [operands mbind option_bind]. rewrite !Nat2N.id.
  unfold MDNode in *. rewrite L0, L1, L2. cbn [mbind option_bind].
  rewrite (struct_node_fields_length (Z.to_nat num_fields))
    by (unfold MDNode; rewrite length_take; lia).
  split; [f_equal; lia |]. repeat split.
Qed.

End StructNodes.

Section StructNodeExamples.

Import TBAA TBAANodes.


Lemma struct_type_node_operand_layout_witness :
  ∃ node,
    Create_TBAA_Struct_Type_Node "S" 12 2 Create_TBAA_Root example_fields
      example_offsets example_sizes = Some node ∧
    operands example_no_operands node =
      Some [Create_TBAA_Root; createConstant_Int64 12; createString "S";
            example_A; createConstant_Int64 0; createConstant_Int64 4;
            example_B; createConstant_Int64 4; createConstant_Int64 8] ∧
    Get_Metadata_Num_Operands example_no_operands node = Some 9%N.
Proof.
  apply (struct_type_node_operand_layout example_no_operands "S" 12 2
           Create_TBAA_Root example_fields example_offsets example_sizes);
    first [ unfold INT_MAX; lia | cbn; lia ].
Defined.

Lemma struct_nodes_defined_exactly_within_bounds_witness :
  Create_TBAA_Struct_Type_Node "S" 12 3 Create_TBAA_Root example_fields
    example_offsets example_sizes = None ∧
  Create_TBAA_Struct_Type_Node "S" 12 (-1) Create_TBAA_Root example_fields
    example_offsets example_sizes = None ∧
  is_Some (Create_TBAA_Struct_Node 2 example_fields example_offsets
             example_sizes).
Proof.
  split; [| split].
  - apply eq_None_not_Some. intros Hsome.
    apply (struct_nodes_defined_exactly_within_bounds "S" 12 3
             Create_TBAA_Root example_fields example_offsets example_sizes)
      in Hsome.
    cbn in Hsome. lia.
  - apply eq_None_not_Some. intros Hsome.
    apply (struct_nodes_defined_exactly_within_bounds "S" 12 (-1)
             Create_TBAA_Root example_fields example_offsets example_sizes)
      in Hsome.
    lia.
  - apply (struct_nodes_defined_exactly_within_bounds "S" 12 2
             Create_TBAA_Root example_fields example_offsets example_sizes).
    unfold INT_MAX. cbn. lia.
Defined.


Lemma struct_type_node_read_back_witness :
  ∃ node,
    Create_TBAA_Struct_Type_Node "S" 12 2 Create_TBAA_Root example_fields
      example_offsets example_sizes = Some node ∧
    Get_Metadata_Operand example_no_operands node 6 = Some (Some example_B) ∧
    Get_Metadata_Operand_Constant_Value example_no_operands node 7 = Some 4%N ∧
    Get_Metadata_Operand_Constant_Value example_no_operands node 8 = Some 8%N.
Proof.
  eexists. split; [reflexivity |].
  destruct (struct_type_node_read_back example_no_operands "S" 12 2
              Create_TBAA_Root example_fields example_offsets example_sizes
              _ 1 example_B 4%N 8%N eq_refl)
    as (_ & _ & H6 & H7 & H8);
    [lia | reflexivity | reflexivity | reflexivity |].
  split; [exact H6 |]. split; [exact H7 | exact H8].
Defined.

Lemma struct_node_read_back_witness :
  ∃ node,
    Create_TBAA_Struct_Node 2 example_fields example_offsets example_sizes
      = Some node ∧
    Get_Metadata_Num_Operands example_no_operands node = Some 6%N ∧
    Get_Metadata_Operand_Constant_Value example_no_operands node 3 = Some 4%N ∧
    Get_Metadata_Operand_Constant_Value example_no_operands node 4 = Some 8%N ∧
    Get_Metadata_Operand example_no_operands node 5 = Some (Some example_B).
Proof.
  eexists. split; [reflexivity |].
  apply (struct_node_read_back example_no_operands 2 example_fields
           example_offsets example_sizes _ 1 example_B 4%N 8%N eq_refl);
    [lia | reflexivity | reflexivity | reflexivity].
Defined.

End StructNodeExamples.

(** ** Comparing integer constants *)

Section EqualConstants.

Import Constants.
Local Open Scope Z_scope.

Lemma pow2_half (w : N) :
  (0 < w)%N → 2 ^ Z.of_N w = 2 * 2 ^ (Z.of_N w - 1).
Proof.
  intros Hw. rewrite <- Z.pow_succ_r by lia. f_equal. lia.
Qed.

Lemma getSExtValue_range i :
  APInt_valid i →
  - 2 ^ (Z.of_N (getBitWidth i) - 1) ≤ getSExtValue i
    < 2 ^ (Z.of_N (getBitWidth i) - 1).
Proof.
  intros [Hw Hu]. unfold getSExtValue. rewrite (pow2_half _ Hw) in *.
  destruct (Z.ltb_spec (getZExtValue i) (2 ^ (Z.of_N (getBitWidth i) - 1)));
    lia.
Qed.

Lemma getSExtValue_mod i :
  APInt_valid i →
  getSExtValue i mod 2 ^ Z.of_N (getBitWidth i) = getZExtValue i.
Proof.
  intros [Hw Hu]. unfold getSExtValue.
  destruct (Z.ltb_spec (getZExtValue i) (2 ^ (Z.of_N (getBitWidth i) - 1))).
  - apply Z.mod_small. exact Hu.
  - replace (getZExtValue i - 2 ^ Z.of_N (getBitWidth i))
      with (getZExtValue i + (-1) * 2 ^ Z.of_N (getBitWidth i)) by lia.
    rewrite Z_mod_plus_full. apply Z.mod_small. exact Hu.
Qed.

Lemma mod_pow2_inj (w : N) a b :
  (0 < w)%N →
  - 2 ^ (Z.of_N w - 1) ≤ a < 2 ^ (Z.of_N w - 1) →
  - 2 ^ (Z.of_N w - 1) ≤ b < 2 ^ (Z.of_N w - 1) →
  a mod 2 ^ Z.of_N w = b mod 2 ^ Z.of_N w → a = b.
Proof.
  intros Hw Ha Hb Hmod. rewrite (pow2_half w Hw) in Hmod.
  set (h := 2 ^ (Z.of_N w - 1)) in *.
  assert (0 < h) by (apply Z.pow_pos_nonneg; lia).
  pose proof (Z.div_mod a (2 * h) ltac:(lia)) as Da.
  pose proof (Z.div_mod b (2 * h) ltac:(lia)) as Db.
  rewrite Hmod in Da.
  assert (a - b = 2 * h * (a / (2 * h) - b / (2 * h))) as Hdiff by lia.
  assert (a / (2 * h) - b / (2 * h) = 0) by nia.
  lia.
Qed.

Lemma getSExtValue_range_wider i (w : N) :
  APInt_valid i → (getBitWidth i < w)%N →
  - 2 ^ (Z.of_N w - 1) ≤ getSExtValue i < 2 ^ (Z.of_N w - 1).
Proof.
  intros Hi Hw. pose proof (getSExtValue_range i Hi) as Hr.
  destruct Hi as [Hpos _].
  assert (2 ^ (Z.of_N (getBitWidth i) - 1) ≤ 2 ^ (Z.of_N w - 1))
    by (apply Z.pow_le_mono_r; lia).
  lia.
Qed.

Lemma APInt_eq_sext_r i1 i2 :
  APInt_valid i1 → APInt_valid i2 → (getBitWidth i2 < getBitWidth i1)%N →
  APInt_eq i1 (sext i2 (getBitWidth i1)) = true ↔
  getSExtValue i1 = getSExtValue i2.
Proof.
  intros H1 H2 Hlt. unfold APInt_eq, sext. cbn [getBitWidth getZExtValue].
  rewrite N.eqb_refl, andb_true_l, Z.eqb_eq.
  rewrite <- (getSExtValue_mod i1 H1). split.
  - apply mod_pow2_inj; [apply H1 | apply getSExtValue_range, H1 |
                         apply getSExtValue_range_wider; assumption].
  - intros ->. reflexivity.
Qed.

(** X6. [Equal_Constants] does what its comment says: on two constants of
    any widths it answers whether their values, read as signed integers,
    are equal. *)
Theorem Equal_Constants_compares_signed_values v1 v2 :
  APInt_valid v1 → APInt_valid v2 →
  Equal_Constants v1 v2 = true ↔ getSExtValue v1 = getSExtValue v2.
Proof.
  intros H1 H2. unfold Equal_Constants. cbv zeta.
  destruct (N.ltb_spec (getBitWidth v2) (getBitWidth v1)) as [Hlt | Hge].
  - apply APInt_eq_sext_r; assumption.
  - destruct (N.ltb_spec (getBitWidth v1) (getBitWidth v2)) as [Hlt | Hle].
    + unfold APInt_eq. cbn [sext getBitWidth getZExtValue].
      rewrite N.eqb_refl, andb_true_l, Z.eqb_eq.
      rewrite <- (getSExtValue_mod v2 H2). split.
      * apply mod_pow2_inj; [apply H2 |
                             apply getSExtValue_range_wider; assumption |
                             apply getSExtValue_range, H2].
      * intros ->. reflexivity.
    + assert (getBitWidth v1 = getBitWidth v2) as Hw by lia.
      unfold APInt_eq. rewrite Hw, N.eqb_refl, andb_true_l, Z.eqb_eq.
      rewrite <- (getSExtValue_mod v1 H1), <- (getSExtValue_mod v2 H2), Hw.
      split.
      * apply mod_pow2_inj; [apply H2 | | apply getSExtValue_range, H2].
        rewrite <- Hw. apply getSExtValue_range, H1.
      * intros ->. reflexivity.
Qed.

Lemma Equal_Constants_compares_signed_values_witness :
  Equal_Constants (mkAPInt 8 255) (mkAPInt 32 4294967295) = true.
Proof.
  apply (Equal_Constants_compares_signed_values (mkAPInt 8 255)
           (mkAPInt 32 4294967295)).
  - split; [reflexivity | cbn; lia].
  - split; [reflexivity | cbn; lia].
  - reflexivity.
Defined.

End EqualConstants.

(** ** Predecessor queries *)

Section PredecessorQueries.

Import Blocks.

Lemma elem_of_predecessors (T : Terminators) BB PBB :
  PBB ∈ predecessors T BB ↔ ∃ succs, T !! PBB = Some succs ∧ BB ∈ succs.
Proof.
  unfold predecessors. rewrite list_elem_of_bind. split.
  - intros ([P succs] & Hin & Hmap). apply elem_of_map_to_list in Hmap.
    apply list_elem_of_bind in Hin as (s & Hs & Hsuccs).
    case_decide as Heq; [| inversion Hs].
    apply list_elem_of_singleton in Hs as ->. subst s. eauto.
  - intros (succs & Hmap & Hin). exists (PBB, succs).
    split; [| apply elem_of_map_to_list, Hmap].
    apply list_elem_of_bind. exists BB. split; [| exact Hin].
    rewrite decide_True by reflexivity. apply list_elem_of_singleton.
    reflexivity.
Qed.

Lemma All_Preds_loop_true (T : Terminators) preds :
  All_Preds_loop T preds = Some true ↔
  Forall (λ PBB, ∃ succs, T !! PBB = Some succs ∧ length succs = 1%nat) preds.
Proof.
  induction preds as [| PBB preds IH]; cbn [All_Preds_loop].
  - split; [constructor | reflexivity].
  - rewrite Forall_cons. destruct (T !! PBB) as [succs |] eqn:Hmap.
    + destruct (N.eqb_spec (N.of_nat (length succs)) 1) as [Hone | Hmany];
        cbn [negb].
      * rewrite IH. split; [| intros [_ H]; exact H].
        intros H. split; [| exact H]. exists succs. split; [reflexivity | lia].
      * split; [discriminate |].
        intros [(succs' & Heq & Hlen) _]. injection Heq as <-. lia.
    + split; [discriminate |]. intros [(succs' & Heq & _) _]. discriminate.
Qed.

Lemma All_Preds_loop_defined (T : Terminators) preds :
  Forall (λ PBB, is_Some (T !! PBB)) preds →
  is_Some (All_Preds_loop T preds).
Proof.
  induction 1 as [| PBB preds [succs Hmap] _ IH]; cbn [All_Preds_loop].
  - eexists; reflexivity.
  - rewrite Hmap. destruct (negb _); [eexists; reflexivity | exact IH].
Qed.

Lemma All_Preds_loop_Permutation (T : Terminators) preds preds' :
  Forall (λ PBB, is_Some (T !! PBB)) preds → preds ≡ₚ preds' →
  All_Preds_loop T preds' = All_Preds_loop T preds.
Proof.
  intros Hdef Hperm.
  destruct (All_Preds_loop_defined T preds Hdef) as [x Hx].
  destruct (All_Preds_loop_defined T preds') as [y Hy];
    [rewrite <- Hperm; exact Hdef |].
  pose proof (All_Preds_loop_true T preds) as Ht. rewrite Hx in Ht.
  pose proof (All_Preds_loop_true T preds') as Ht'. rewrite Hy in Ht'.
  rewrite Hx, Hy. destruct x, y; try reflexivity.
  - destruct Ht as [Ht _]. destruct Ht' as [_ Ht'].
    specialize (Ht' (Permutation_Forall Hperm (Ht eq_refl))). discriminate.
  - destruct Ht as [_ Ht]. destruct Ht' as [Ht' _].
    specialize (Ht (Permutation_Forall (Permutation_sym Hperm)
                      (Ht' eq_refl))).
    discriminate.
Qed.

(** X7. [All_Preds_Are_Unc_Branches] always has an answer, and the answer
    is true exactly when every block whose terminator has [BB] among its
    successors has [BB] as its only successor; the order in which the
    predecessors are visited does not change the answer. *)
Theorem All_Preds_Are_Unc_Branches_iff (T : Terminators) (BB : N) :
  is_Some (All_Preds_Are_Unc_Branches T BB) ∧
  (All_Preds_Are_Unc_Branches T BB = Some true ↔
   ∀ PBB succs, T !! PBB = Some succs → BB ∈ succs → succs = [BB]) ∧
  (∀ preds, predecessors T BB ≡ₚ preds →
     All_Preds_loop T preds = All_Preds_Are_Unc_Branches T BB).
Proof.
  assert (Forall (λ PBB, is_Some (T !! PBB)) (predecessors T BB)) as Hdef.
  { apply Forall_forall. intros PBB Hin.
    apply elem_of_predecessors in Hin as (succs & Hmap & _). eauto. }
  unfold All_Preds_Are_Unc_Branches. split; [| split].
  - apply All_Preds_loop_defined, Hdef.
  - rewrite All_Preds_loop_true, Forall_forall. split.
    + intros Hall PBB succs Hmap Hin.
      destruct (Hall PBB) as (succs' & Hmap' & Hlen).
      { apply elem_of_predecessors. eauto. }
      rewrite Hmap in Hmap'. injection Hmap' as <-.
      destruct succs as [| s [| ? ?]]; try discriminate.
      apply list_elem_of_singleton in Hin as ->. reflexivity.
    + intros Hall PBB Hin.
      apply elem_of_predecessors in Hin as (succs & Hmap & Hin).
      exists succs. split; [exact Hmap |].
      rewrite (Hall PBB succs Hmap Hin). reflexivity.
  - intros preds Hperm. apply All_Preds_loop_Permutation; assumption.
Qed.

(** X8. A block is dead exactly when no terminator has it among its
    successors, and for a dead block [All_Preds_Are_Unc_Branches] answers
    true. *)
Theorem dead_block_has_all_preds_unconditional (T : Terminators) (BB : N) :
  (Is_Dead_Basic_Block T BB = true ↔
   ∀ PBB succs, T !! PBB = Some succs → BB ∉ succs) ∧
  (Is_Dead_Basic_Block T BB = true →
   All_Preds_Are_Unc_Branches T BB = Some true).
Proof.
  unfold Is_Dead_Basic_Block, All_Preds_Are_Unc_Branches.
  rewrite N.eqb_eq. split; [split |].
  - intros Hlen PBB succs Hmap Hin.
    assert (PBB ∈ predecessors T BB) as Hpred
      by (apply elem_of_predecessors; eauto).
    destruct (predecessors T BB); [inversion Hpred | discriminate].
  - intros Hnone. destruct (predecessors T BB) as [| PBB preds] eqn:Hpreds;
      [reflexivity |].
    exfalso. assert (PBB ∈ predecessors T BB) as Hpred
      by (rewrite Hpreds; left).
    apply elem_of_predecessors in Hpred as (succs & Hmap & Hin).
    exact (Hnone PBB succs Hmap Hin).
  - intros Hlen. destruct (predecessors T BB); [reflexivity | discriminate].
Qed.

Lemma dead_block_has_all_preds_unconditional_witness :
  All_Preds_Are_Unc_Branches example_graph 5 = Some true.
Proof.
  apply (dead_block_has_all_preds_unconditional example_graph 5).
  vm_compute. reflexivity.
Defined.

End PredecessorQueries.

(** ** Attribute setters and queries *)

Section AttributeProperties.

Import Attributes.

Lemma hasAttributeAtIndex_add (A : AttributeList) i k j l :
  hasAttributeAtIndex (addAttributeAtIndex A i k) j l =
    bool_decide ((j, l) = (i, k)) || hasAttributeAtIndex A j l.
Proof.
  unfold hasAttributeAtIndex, addAttributeAtIndex.
  destruct (decide ((j, l) = (i, k))) as [Heq | Hne].
  - rewrite (bool_decide_eq_true_2 _ Heq). cbn [orb].
    apply bool_decide_eq_true_2, elem_of_union. left.
    apply elem_of_singleton, Heq.
  - rewrite (bool_decide_eq_false_2 _ Hne). cbn [orb].
    apply bool_decide_ext. rewrite elem_of_union, elem_of_singleton.
    tauto.
Qed.

(** X9. [Add_Nest_Attribute] leaves a value that is neither a function, a
    call nor an invoke as it is; on those three it makes the nest query at
    [idx] true and changes the answer for no other attribute kind and no
    other position. *)
Theorem Add_Nest_Attribute_dispatch (v : Value) (idx : N) :
  (attributes_of v = None → Add_Nest_Attribute v idx = v) ∧
  (∀ A, attributes_of v = Some A →
     ∃ A', attributes_of (Add_Nest_Attribute v idx) = Some A' ∧
       Has_Nest_Attribute A' idx = true ∧
       Call_Param_Has_Nest A' idx = true ∧
       ∀ i k, (i, k) ≠ (ParamIndex idx, Nest) →
         hasAttributeAtIndex A' i k = hasAttributeAtIndex A i k).
Proof.
  split.
  - destruct v; [discriminate .. | reflexivity].
  - intros A HA.
    exists (addAttributeAtIndex A (ParamIndex idx) Nest). split.
    { destruct v; cbn in HA |- *; congruence. }
    unfold Has_Nest_Attribute, Call_Param_Has_Nest.
    rewrite !hasAttributeAtIndex_add.
    rewrite (bool_decide_eq_true_2 _ eq_refl). cbn [orb].
    split; [reflexivity |]. split; [reflexivity |].
    intros i k Hne. rewrite hasAttributeAtIndex_add.
    rewrite (bool_decide_eq_false_2 _ Hne). reflexivity.
Qed.

Lemma Add_Nest_Attribute_dispatch_witness :
  Add_Nest_Attribute (OtherValue 3) 0 = OtherValue 3 ∧
  ∃ A', attributes_of (Add_Nest_Attribute (CallInst ∅) 2) = Some A' ∧
        Call_Param_Has_Nest A' 2 = true.
Proof.
  split.
  - apply (Add_Nest_Attribute_dispatch (OtherValue 3) 0). reflexivity.
  - destruct (Add_Nest_Attribute_dispatch (CallInst ∅) 2) as [_ H].
    destruct (H ∅ eq_refl) as (A' & HA' & _ & Hnest & _).
    exists A'. split; assumption.
Defined.

(** X10. [Has_Inline_Attribute] reports the inline hint only: adding the
    hint makes it true, while forcing or forbidding inlining leaves its
    answer as it was; [Has_Inline_Always_Attribute] is made true by
    [Add_Inline_Always_Attribute] and is unchanged by the other two. *)
Theorem inline_queries_by_setter (fn : AttributeList) :
  Has_Inline_Attribute (Add_Inline_Hint_Attribute fn) = true ∧
  Has_Inline_Attribute (Add_Inline_Always_Attribute fn) =
    Has_Inline_Attribute fn ∧
  Has_Inline_Attribute (Add_Inline_No_Attribute fn) =
    Has_Inline_Attribute fn ∧
  Has_Inline_Always_Attribute (Add_Inline_Always_Attribute fn) = true ∧
  Has_Inline_Always_Attribute (Add_Inline_Hint_Attribute fn) =
    Has_Inline_Always_Attribute fn ∧
  Has_Inline_Always_Attribute (Add_Inline_No_Attribute fn) =
    Has_Inline_Always_Attribute fn.
Proof.
  unfold Has_Inline_Attribute, Has_Inline_Always_Attribute,
    Add_Inline_Hint_Attribute, Add_Inline_Always_Attribute,
    Add_Inline_No_Attribute.
  rewrite !hasAttributeAtIndex_add.
  repeat split;
    first [ rewrite (bool_decide_eq_true_2 _ eq_refl); reflexivity
          | rewrite bool_decide_eq_false_2 by discriminate; reflexivity ].
Qed.

End AttributeProperties.

(** ** More on the driver *)

Section DriverOrder.

Import Orchestrator.
Local Open Scope Z_scope.

Context {PassPlugin : Type} (PassPlugin_Load : string → Expected PassPlugin).

(** X11. A level outside 0..3 is not level 0 for the pipeline choice but
    maps to the member O0: the driver then asks for the thin-LTO, LTO or
    per-module pipeline at O0, and adds no loop rotation. *)
Theorem out_of_range_level_requests_pipeline_at_O0
  (CodeOptLevel : Z) (NeedLoopInfo PrepareForThinLTO PrepareForLTO : bool) :
  CodeOptLevel < 0 ∨ 3 < CodeOptLevel →
  default_pipelines
    (MPM_assembled CodeOptLevel NeedLoopInfo PrepareForThinLTO PrepareForLTO) =
    [if PrepareForThinLTO then ThinLTOPreLinkDefaultPipeline O0
     else if PrepareForLTO then LTOPreLinkDefaultPipeline O0
     else PerModuleDefaultPipeline O0] ∧
  LoopRotate_adaptor ∉
    MPM_assembled CodeOptLevel NeedLoopInfo PrepareForThinLTO PrepareForLTO.
Proof.
  intros Hout. unfold MPM_assembled, MPM_selected, Level.
  assert ((CodeOptLevel =? 0) = false) as -> by lia.
  assert ((CodeOptLevel =? 1) = false) as -> by lia.
  assert ((CodeOptLevel =? 2) = false) as -> by lia.
  assert ((CodeOptLevel =? 3) = false) as -> by lia.
  unfold LoopRotate_adaptor. split.
  - destruct NeedLoopInfo, PrepareForThinLTO, PrepareForLTO; reflexivity.
  - intros Hin.
    destruct NeedLoopInfo, PrepareForThinLTO, PrepareForLTO;
      unfold addPass in Hin; simpl in Hin;
      repeat (apply elem_of_cons in Hin as [Hin | Hin]; [discriminate |]);
      apply elem_of_nil in Hin; exact Hin.
Qed.

(** X12. What a run that gets past the plugin step does, in order: it
    constructs the pass builder, loads the plugin and registers its
    callbacks when a plugin is named, registers the seven analyses in the
    order of the source (alias analysis first, the cross-registration of
    proxies last), and runs the pass manager; nothing else. *)
Theorem successful_run_order M TM TargetTriple CodeOptLevel SizeOptLevel
  NeedLoopInfo NoUnrollLoops NoLoopVectorization NoSLPVectorization
  MergeFunctions PrepareForThinLTO PrepareForLTO RerollLoops PassPluginName
  ErrorMessage w :
  plugin_loads _ PassPlugin_Load PassPluginName = true →
  let w' :=
    (LLVM_Optimize_Module PassPlugin PassPlugin_Load M TM TargetTriple
       CodeOptLevel SizeOptLevel NeedLoopInfo NoUnrollLoops
       NoLoopVectorization NoSLPVectorization MergeFunctions
       PrepareForThinLTO PrepareForLTO RerollLoops PassPluginName
       ErrorMessage w).2 in
  drop (length (trace _ w)) (trace _ w') =
    [NewPassBuilder _ TM
       (PTO_of NoUnrollLoops NoLoopVectorization NoSLPVectorization
          MergeFunctions)]
    ++ match PassPluginName with
       | Some Name =>
           PassPlugin_Load_call _ Name
           :: match PassPlugin_Load Name with
              | Value Plugin => [registerPassBuilderCallbacks _ Plugin]
              | StringError _ => []
              end
       | None => []
       end
    ++ [registerPass_DefaultAAPipeline _;
        registerPass_TargetLibraryAnalysis _ TargetTriple;
        registerModuleAnalyses _; registerCGSCCAnalyses _;
        registerFunctionAnalyses _; registerLoopAnalyses _;
        crossRegisterProxies _]
    ++ [run _ (MPM_assembled CodeOptLevel NeedLoopInfo PrepareForThinLTO
                 PrepareForLTO) M] ∧
  take (length (trace _ w)) (trace _ w') = trace _ w.
Proof.
  intros Hok. cbv zeta.
  rewrite (driver_success PassPlugin_Load _ _ _ _ _ _ _ _ _ _ _ _ _ _
             ErrorMessage w Hok).
  cbn [snd trace]. rewrite drop_app_length, take_app_length.
  split; [| reflexivity].
  unfold plugin_events, registrations. cbn [app].
  rewrite <- app_assoc. reflexivity.
Qed.

End DriverOrder.

Lemma out_of_range_level_requests_pipeline_at_O0_witness :
  Orchestrator.default_pipelines
    (Orchestrator.MPM_assembled 4 true false false) =
    [Orchestrator.PerModuleDefaultPipeline Orchestrator.O0].
Proof.
  apply (out_of_range_level_requests_pipeline_at_O0 4 true false false).
  right. lia.
Defined.

Lemma successful_run_order_witness :
  drop 0
    (Orchestrator.trace _
       (Orchestrator.LLVM_Optimize_Module unit Orchestrator.example_Load
          1 2 "x86_64-linux" 0 0 true false false false false false false
          false (Some "libpass.so") None Orchestrator.example_world).2) =
  [Orchestrator.NewPassBuilder _ 2
     (Orchestrator.PTO_of false false false false);
   Orchestrator.PassPlugin_Load_call _ "libpass.so";
   Orchestrator.registerPassBuilderCallbacks _ tt;
   Orchestrator.registerPass_DefaultAAPipeline _;
   Orchestrator.registerPass_TargetLibraryAnalysis _ "x86_64-linux";
   Orchestrator.registerModuleAnalyses _;
   Orchestrator.registerCGSCCAnalyses _;
   Orchestrator.registerFunctionAnalyses _;
   Orchestrator.registerLoopAnalyses _;
   Orchestrator.crossRegisterProxies _;
   Orchestrator.run _
     [Orchestrator.O0DefaultPipeline Orchestrator.O0 false;
      Orchestrator.LoopRotate_adaptor; Orchestrator.OurLoopPass_adaptor] 1].
Proof.
  apply (successful_run_order Orchestrator.example_Load 1 2 "x86_64-linux"
           0 0 true false false false false false false false
           (Some "libpass.so") None Orchestrator.example_world).
  reflexivity.
Defined.

(** ** The tracker's bookkeeping *)

Section TrackerBookkeeping.

Import Tracker TrackerInvariant.
Local Open Scope N_scope.

Lemma fresh_handle_not_live (s : State) :
  heap s !! fresh (dom (heap s)) = None.
Proof. apply not_elem_of_dom, is_fresh. Qed.

Lemma handles_of_Notify V Fn V' s :
  handles_of V' (Notify_On_Value_Delete V Fn s) =
    if decide (V = V') then fresh (dom (heap s)) :: handles_of V s
    else handles_of V' s.
Proof.
  unfold handles_of at 1, Notify_On_Value_Delete. cbn [ValueHandles].
  rewrite lookup_insert. destruct (decide (V = V')) as [-> |]; reflexivity.
Qed.

Lemma handles_of_delete_this this s o V' :
  heap s !! this = Some o →
  ∃ s', delete_this this s = Done s' ∧
        heap s' = delete this (heap s) ∧
        trace s' = trace s ++ [release this] ∧
        handles_of V' s' =
          if decide (ValPtr o = V')
          then filter (λ h, h ≠ this) (handles_of V' s)
          else handles_of V' s.
Proof.
  intros Hlive. unfold delete_this. rewrite Hlive. eexists.
  split; [reflexivity |]. split; [reflexivity |]. split; [reflexivity |].
  unfold handles_of at 1. cbn [ValueHandles]. rewrite lookup_insert.
  destruct (decide (ValPtr o = V')) as [-> |]; reflexivity.
Qed.

Lemma consistent_init : consistent init.
Proof.
  split; [| split].
  - intros V h. unfold handles_of, init. cbn [ValueHandles heap].
    rewrite lookup_empty. cbn [default]. split.
    + intros Hin. inversion Hin.
    + intros (o & Ho & _). rewrite lookup_empty in Ho. discriminate.
  - intros V. unfold handles_of, init. cbn [ValueHandles].
    rewrite lookup_empty. constructor.
  - intros h o Ho. cbn in Ho. rewrite lookup_empty in Ho. discriminate.
Qed.

Lemma consistent_Notify V Fn s :
  consistent s → consistent (Notify_On_Value_Delete V Fn s).
Proof.
  intros (Hlist & Hnodup & Hval).
  pose proof (fresh_handle_not_live s) as Hfresh.
  set (CB := fresh (dom (heap s))) in *.
  assert (∀ h, heap (Notify_On_Value_Delete V Fn s) !! h =
               if decide (CB = h)
               then Some {| ValPtr := V; val := V; fn := Fn |}
               else heap s !! h) as Hheap.
  { intros h. unfold Notify_On_Value_Delete. cbn [heap]. fold CB.
    rewrite lookup_insert. destruct (decide (CB = h)); reflexivity. }
  split; [| split].
  - intros V' h. rewrite handles_of_Notify, Hheap. fold CB.
    destruct (decide (V = V')) as [<- | HV].
    + rewrite elem_of_cons, Hlist. destruct (decide (CB = h)) as [<- | Hh].
      * split; [eauto | left; reflexivity].
      * split.
        -- intros [-> | H]; [contradiction | exact H].
        -- intros H. right. exact H.
    + rewrite Hlist. destruct (decide (CB = h)) as [<- | Hh]; [| reflexivity].
      split.
      * intros (o & Ho & _). rewrite Hfresh in Ho. discriminate.
      * intros (o & Ho & HVal). injection Ho as <-. cbn in HVal. contradiction.
  - intros V'. rewrite handles_of_Notify. fold CB.
    destruct (decide (V = V')) as [<- |]; [| apply Hnodup].
    constructor; [| apply Hnodup].
    intros Hin. apply Hlist in Hin as (o & Ho & _).
    rewrite Hfresh in Ho. discriminate.
  - intros h o. rewrite Hheap. destruct (decide (CB = h)).
    + intros Ho. injection Ho as <-. reflexivity.
    + apply Hval.
Qed.

Lemma consistent_delete_this this s s' :
  consistent s → delete_this this s = Done s' → consistent s'.
Proof.
  intros (Hlist & Hnodup & Hval) Hdel.
  destruct (heap s !! this) as [o |] eqn:Hlive;
    [| unfold delete_this in Hdel; rewrite Hlive in Hdel; discriminate].
  assert (∀ V', handles_of V' s' =
                if decide (ValPtr o = V')
                then filter (λ h, h ≠ this) (handles_of V' s)
                else handles_of V' s) as Hhandles.
  { intros V'. destruct (handles_of_delete_this this s o V' Hlive)
      as (s'' & Hdel' & _ & _ & H).
    rewrite Hdel in Hdel'. injection Hdel' as <-. exact H. }
  assert (heap s' = delete this (heap s)) as Hheap.
  { destruct (handles_of_delete_this this s o 0 Hlive)
      as (s'' & Hdel' & H & _).
    rewrite Hdel in Hdel'. injection Hdel' as <-. exact H. }
  split; [| split].
  - intros V' h. rewrite Hhandles, Hheap, lookup_delete.
    destruct (decide (ValPtr o = V')) as [HV | HV].
    + rewrite list_elem_of_filter, Hlist.
      destruct (decide (this = h)) as [<- | Hh].
      * split; [intros [Hne _]; contradiction |].
        intros (o' & Ho' & _). discriminate.
      * split; [intros [_ H]; exact H | intros H; split; [congruence | exact H]].
    + rewrite Hlist. destruct (decide (this = h)) as [<- | Hh]; [| reflexivity].
      split.
      * intros (o' & Ho' & HV'). rewrite Hlive in Ho'. injection Ho' as <-.
        contradiction.
      * intros (o' & Ho' & _). discriminate.
  - intros V'. rewrite Hhandles.
    destruct (decide (ValPtr o = V')); [apply NoDup_filter |]; apply Hnodup.
  - intros h o'. rewrite Hheap, lookup_delete.
    destruct (decide (this = h)); [discriminate | apply Hval].
Qed.


Lemma consistent_deleted this s :
  consistent s → consistent (final (deleted this s)).
Proof.
  intros Hs. unfold deleted.
  destruct (delete_this this s) as [s1 | h s1] eqn:Hdel.
  - pose proof (consistent_delete_this _ _ _ Hs Hdel) as Hs1.
    cbn [then_]. unfold call_fn_val.
    destruct (heap s1 !! this) as [o |]; cbn [final]; [| exact Hs1].
    destruct Hs1 as (Hlist & Hnodup & Hval).
    split; [| split]; assumption.
  - cbn [then_ final]. unfold delete_this in Hdel.
    destruct (heap s !! this); [discriminate |].
    injection Hdel as _ <-. exact Hs.
Qed.

Lemma consistent_notify hs :
  ∀ s, consistent s → consistent (final (notify deleted hs s)).
Proof.
  induction hs as [| h hs IH]; intros s Hs; cbn [notify final].
  - exact Hs.
  - pose proof (consistent_deleted h s Hs) as Hd.
    destruct (deleted h s) as [s1 | h' s1]; cbn [then_ final] in *.
    + apply IH, Hd.
    + exact Hd.
Qed.

(** X13. The tracker's bookkeeping invariant: it holds initially and is
    kept by a registration, by the release of a registration and by the
    destruction of a value; in every state so reached each use list names
    exactly the live registrations watching its value, without repeats,
    and each registration's callback argument is the value it watches. *)
Theorem registration_bookkeeping_invariant :
  consistent init ∧
  (∀ s V Fn, consistent s → consistent (Notify_On_Value_Delete V Fn s)) ∧
  (∀ s this s', consistent s → delete_this this s = Done s' → consistent s') ∧
  (∀ s V, consistent s → consistent (final (ValueIsDeleted deleted V s))).
Proof.
  split; [exact consistent_init |].
  split; [intros s V Fn; apply consistent_Notify |].
  split; [intros s this s'; apply consistent_delete_this |].
  intros s V Hs. unfold ValueIsDeleted. apply consistent_notify, Hs.
Qed.

(** X14. Registrations are not merged: registering the same value with the
    same callback twice leaves two live registrations at different
    addresses, both on the value's use list, the later one first. *)
Theorem registrations_are_not_deduplicated (V Fn : N) (s : State) :
  let s2 := Notify_On_Value_Delete V Fn (Notify_On_Value_Delete V Fn s) in
  ∃ h1 h2,
    h1 ≠ h2 ∧
    handles_of V s2 = h2 :: h1 :: handles_of V s ∧
    heap s2 !! h1 = Some {| ValPtr := V; val := V; fn := Fn |} ∧
    heap s2 !! h2 = Some {| ValPtr := V; val := V; fn := Fn |} ∧
    trace s2 = trace s.
Proof.
  cbv zeta.
  set (s1 := Notify_On_Value_Delete V Fn s).
  set (h1 := fresh (dom (heap s))).
  set (h2 := fresh (dom (heap s1))).
  assert (heap s1 !! h1 = Some {| ValPtr := V; val := V; fn := Fn |}) as Hh1
    by apply Notify_heap.
  assert (h1 ≠ h2) as Hne.
  { intros Heq. pose proof (fresh_handle_not_live s1) as Hfresh.
    fold h2 in Hfresh. rewrite <- Heq, Hh1 in Hfresh. discriminate. }
  exists h1, h2. split; [exact Hne |]. split; [| split; [| split]].
  - rewrite handles_of_Notify, decide_True by reflexivity.
    unfold s1 at 2. rewrite handles_of_Notify, decide_True by reflexivity.
    reflexivity.
  - unfold Notify_On_Value_Delete at 1. cbn [heap]. fold s1 h2.
    rewrite lookup_insert_ne by congruence. exact Hh1.
  - apply Notify_heap.
  - reflexivity.
Qed.

(** X15. Destroying a value that no live registration watches changes
    nothing: nothing is released and no callback is called. *)
Theorem destroying_untracked_value_changes_nothing (V : N) (s : State) :
  consistent s →
  (∀ h o, heap s !! h = Some o → ValPtr o ≠ V) →
  ValueIsDeleted deleted V s = Done s.
Proof.
  intros (Hlist & _ & _) Hnone. unfold ValueIsDeleted.
  destruct (handles_of V s) as [| h hs] eqn:Hhs; [reflexivity |].
  exfalso. assert (h ∈ handles_of V s) as Hin by (rewrite Hhs; left).
  apply Hlist in Hin as (o & Ho & HV). exact (Hnone h o Ho HV).
Qed.

Lemma destroying_untracked_value_changes_nothing_witness :
  ValueIsDeleted deleted 7 (Notify_On_Value_Delete 9 1 init) =
    Done (Notify_On_Value_Delete 9 1 init).
Proof.
  apply (destroying_untracked_value_changes_nothing 7
           (Notify_On_Value_Delete 9 1 init)).
  - apply consistent_Notify, consistent_init.
  - intros h o Ho HV.
    unfold Notify_On_Value_Delete in Ho. cbn [heap init] in Ho.
    apply lookup_insert_Some in Ho as [[_ <-] | [_ Ho]].
    + discriminate HV.
    + rewrite lookup_empty in Ho. discriminate.
Defined.

End TrackerBookkeeping.

(** ** Size and content of the rendered text *)

Section RenderedText.

Import FP.

Lemma length_append (a b : string) :
  String.length (a +:+ b) = (String.length a + String.length b)%nat.
Proof.
  induction a as [| c a IH]; [reflexivity |].
  change (String c a +:+ b) with (String c (a +:+ b)).
  cbn [String.length]. rewrite IH. reflexivity.
Qed.

Lemma append_inv_tail (c : string) :
  ∀ a b : string, a +:+ c = b +:+ c → a = b.
Proof.
  induction a as [| x a IH]; intros [| y b] Heq;
    try change (String x a +:+ c) with (String x (a +:+ c)) in Heq;
    try change (String y b +:+ c) with (String y (b +:+ c)) in Heq;
    change ("" +:+ c) with c in *.
  - reflexivity.
  - exfalso. apply (f_equal String.length) in Heq.
    cbn [String.length] in Heq. rewrite length_append in Heq. lia.
  - exfalso. apply (f_equal String.length) in Heq.
    cbn [String.length] in Heq. rewrite length_append in Heq. lia.
  - injection Heq as -> Heq. f_equal. apply IH, Heq.
Qed.

Lemma utohexstr_loop_length n :
  ∀ X acc,
    (String.length acc ≤ String.length (utohexstr_loop n X acc)
     ≤ n + String.length acc)%nat ∧
    (X ≠ 0%N → n ≠ 0%nat →
     (1 + String.length acc ≤ String.length (utohexstr_loop n X acc))%nat).
Proof.
  induction n as [| n IH]; intros X acc; cbn [utohexstr_loop].
  - split; [lia | intros _ Hn; contradiction].
  - destruct (N.eqb_spec X 0) as [-> | Hnz].
    + split; [lia | intros Hx; contradiction].
    + destruct (IH (N.shiftr X 4) (String (hexdigit (N.land X 15)) acc))
        as [Hrange _].
      cbn [String.length] in Hrange. split; [lia | intros _ _; lia].
Qed.

Lemma utohexstr_length X :
  (1 ≤ String.length (utohexstr X) ≤ 16)%nat.
Proof.
  unfold utohexstr. destruct (N.eqb_spec X 0) as [-> | Hnz].
  - cbn. lia.
  - destruct (utohexstr_loop_length 16 X "") as [Hrange Hpos].
    specialize (Hpos Hnz ltac:(discriminate)). cbn [String.length] in *. lia.
Qed.

Variable toString : APFloat → string.

(** X16. How much [Convert_FP_To_String] writes when it does not call
    [toString]: for an infinite or NaN single or double the text has four
    characters around the hexadecimal digits, between 5 and 20 in all; for
    any other precision it has 33.  A finite single is one character
    longer than LLVM's decimal string, a finite double as long. *)
Theorem rendered_text_length (APF : APFloat) :
  let n := (Convert_FP_To_String toString APF).2 in
  (getSemantics APF = IEEEsingle ∨ getSemantics APF = IEEEdouble →
   isInfinity APF = true ∨ isNaN APF = true →
   n = (4 + Z.of_nat (String.length (utohexstr (bits APF))))%Z ∧
   (5 ≤ n ≤ 20)%Z) ∧
  (getSemantics APF ≠ IEEEsingle → getSemantics APF ≠ IEEEdouble →
   n = 33%Z) ∧
  (getSemantics APF = IEEEsingle →
   isInfinity APF = false → isNaN APF = false →
   n = (Z.of_nat (String.length (toString APF)) + 1)%Z) ∧
  (getSemantics APF = IEEEdouble →
   isInfinity APF = false → isNaN APF = false →
   n = Z.of_nat (String.length (toString APF))).
Proof.
  cbv zeta. unfold Convert_FP_To_String.
  split; [| split; [| split]].
  - intros Hsem Hspecial.
    assert (negb (isInfinity APF) && negb (isNaN APF) = false) as ->.
    { destruct Hspecial as [-> | ->]; [reflexivity | apply andb_false_r]. }
    assert (bool_decide (getSemantics APF = IEEEsingle)
            || bool_decide (getSemantics APF = IEEEdouble) = true) as ->.
    { destruct Hsem as [-> | ->]; reflexivity. }
    cbn [snd]. pose proof (utohexstr_length (bits APF)) as Hlen.
    change ("0x" +:+ utohexstr (bits APF) +:+ "p0")
      with (String "0" (String "x" (utohexstr (bits APF) +:+ "p0"))).
    cbn [String.length]. rewrite length_append. cbn [String.length]. lia.
  - intros H1 H2. rewrite !bool_decide_eq_false_2 by assumption. reflexivity.
  - intros -> -> ->.
    change (Z.of_nat (String.length (toString APF +:+ "f")) =
            (Z.of_nat (String.length (toString APF)) + 1)%Z).
    rewrite length_append. cbn [String.length]. lia.
  - intros -> -> ->. reflexivity.
Qed.

(** X17. The text of an infinite or NaN single or double determines its
    bit pattern: two such values with the same text have the same 64-bit
    pattern, so NaN payloads and the sign of an infinity are not lost. *)
Theorem special_value_text_determines_bits (a b : APFloat) :
  getSemantics a = IEEEsingle ∨ getSemantics a = IEEEdouble →
  getSemantics b = IEEEsingle ∨ getSemantics b = IEEEdouble →
  isInfinity a = true ∨ isNaN a = true →
  isInfinity b = true ∨ isNaN b = true →
  (bits a < 2 ^ 64)%N → (bits b < 2 ^ 64)%N →
  (Convert_FP_To_String toString a).1 = (Convert_FP_To_String toString b).1 →
  bits a = bits b.
Proof.
  intros Hsa Hsb Hxa Hxb Ha Hb. unfold Convert_FP_To_String.
  assert (negb (isInfinity a) && negb (isNaN a) = false) as ->.
  { destruct Hxa as [-> | ->]; [reflexivity | apply andb_false_r]. }
  assert (negb (isInfinity b) && negb (isNaN b) = false) as ->.
  { destruct Hxb as [-> | ->]; [reflexivity | apply andb_false_r]. }
  assert (bool_decide (getSemantics a = IEEEsingle)
          || bool_decide (getSemantics a = IEEEdouble) = true) as ->.
  { destruct Hsa as [-> | ->]; reflexivity. }
  assert (bool_decide (getSemantics b = IEEEsingle)
          || bool_decide (getSemantics b = IEEEdouble) = true) as ->.
  { destruct Hsb as [-> | ->]; reflexivity. }
  cbn [fst]. intros Htext.
  change ("0x" +:+ utohexstr (bits a) +:+ "p0")
    with (String "0" (String "x" (utohexstr (bits a) +:+ "p0"))) in Htext.
  change ("0x" +:+ utohexstr (bits b) +:+ "p0")
    with (String "0" (String "x" (utohexstr (bits b) +:+ "p0"))) in Htext.
  injection Htext as Htext. apply append_inv_tail in Htext.
  rewrite <- (utohexstr_value (bits a) Ha), <- (utohexstr_value (bits b) Hb).
  rewrite Htext. reflexivity.
Qed.

End RenderedText.

Lemma rendered_text_length_witness :
  (FP.Convert_FP_To_String (λ _, "1.5"%string)
     (FP.mkAPFloat FP.IEEEsingle FP.fcNaN 0x7fc00000)).2 = 12%Z ∧
  (FP.Convert_FP_To_String (λ _, "1.5"%string)
     (FP.mkAPFloat FP.IEEEhalf FP.fcNormal 0x3c00)).2 = 33%Z.
Proof.
  split.
  - destruct (rendered_text_length (λ _, "1.5"%string)
                (FP.mkAPFloat FP.IEEEsingle FP.fcNaN 0x7fc00000))
      as (H & _).
    destruct H as [H _]; [left; reflexivity | right; reflexivity |].
    exact H.
  - destruct (rendered_text_length (λ _, "1.5"%string)
                (FP.mkAPFloat FP.IEEEhalf FP.fcNormal 0x3c00))
      as (_ & H & _).
    apply H; discriminate.
Defined.

Lemma special_value_text_determines_bits_witness :
  FP.bits (FP.mkAPFloat FP.IEEEdouble FP.fcInfinity 0x7ff0000000000000) =
  FP.bits (FP.mkAPFloat FP.IEEEdouble FP.fcInfinity 0x7ff0000000000000).
Proof.
  apply (special_value_text_determines_bits (λ _, "1.5"%string)
           (FP.mkAPFloat FP.IEEEdouble FP.fcInfinity 0x7ff0000000000000)
           (FP.mkAPFloat FP.IEEEdouble FP.fcInfinity 0x7ff0000000000000));
    first [ right; reflexivity | left; reflexivity | reflexivity ].
Defined.

(** ** The text of a finite value *)

Section FiniteText.

Import FP APFloatText.
Local Open Scope Z_scope.











End FiniteText.

(** ** The tracker as the compiled program runs it *)

Section TrackerExecution.

Import TrackerExec.
Local Open Scope N_scope.



















(** Two registrations of the same value, the second with the callback of
    an earlier one, and the value destroyed twice: each registration is
    released and fires once, at the first destruction that follows it. *)
Example exec_two_registrations :
  match run [track 7 1; track 7 2; destroy 9; destroy 7; destroy 7;
             track 7 1; destroy 7] init with
  | Done s =>
      trace s = [release 1; call 1 2 7; release 0; call 0 1 7;
                 release 2; call 2 1 7] ∧
      heap s = ∅
  | BadPointer _ _ => False
  end.
Proof. vm_compute. split; reflexivity. Qed.

End TrackerExecution.
